(** * Tower of Hanoi: the puzzle engine and the score service

    A shallow embedding of the browser game (class [TowerOfHanoi]) and of the
    two Express back ends that keep the high-score table, followed by the
    properties of the specification that were checked against them.

    - [JS]: the fragment of JavaScript values the code computes with
      (numbers with NaN and the infinities, [parseInt], [String.trim]).
    - [Hanoi]: the game object; every method is a function on the record of
      its fields, and a method that would throw a [TypeError] returns [None].
    - [Sql]: the [scores] table and the statements the servers run on it.
    - [Server]: src/server.js, the hardened back end (length and range checks,
      date check, per-address limit, capacity of 100 rows), with the
      error-handling middleware behind its routes.
    - [PlainServer]: the second back end (src/unnamed/part_001), which has the
      basic checks only, and a bulk delete.
    - [Solve], [Submit]: the shortest game, and what the page posts and
      writes to its clock.

    What is left out: the DOM (the game is followed through its [towers]
    arrays, which it keeps in step with the page; [style.width] is read
    back as it was written), and the Express middleware in front of the
    routes (helmet, the request limiter, CORS, the body size limit); a
    request here is one that has reached its route handler.  The SQL statements run as the SQLite of
    better-sqlite3 runs them: that build has no double-quoted string
    literals, so in [datetime("now", "-1 hour")] the quoted words are
    identifiers. *)

From Stdlib Require Import ZArith QArith Qround Qabs Lia Lqa Ascii String.
From stdpp Require Import base option list strings sorting pretty.

Local Open Scope Z_scope.

(* ===================================================================== *)
(** * JavaScript values *)
(* ===================================================================== *)

Module JS.

(** A finite double is a rational; the model keeps every rational, which
    only adds inputs.  [ereal] is a number that is not NaN. *)
Inductive ereal := NegInf | Fin (q : Q) | PosInf.

Inductive number := NaN | Num (x : ereal).

Definition of_Z (z : Z) : ereal := Fin (inject_Z z).

Definition Qltb (x y : Q) : bool := negb (Qle_bool y x).

(** [a < b] on numbers that are not NaN. *)
Definition ereal_ltb (a b : ereal) : bool :=
  match a, b with
  | NegInf, NegInf => false
  | NegInf, _ => true
  | Fin _, NegInf => false
  | Fin x, Fin y => Qltb x y
  | Fin _, PosInf => true
  | PosInf, _ => false
  end.

(** [a < b] and [a > b] of JavaScript: false as soon as one side is NaN. *)
Definition ltb (a b : number) : bool :=
  match a, b with
  | Num x, Num y => ereal_ltb x y
  | _, _ => false
  end.

Definition gtb (a b : number) : bool := ltb b a.

Definition ereal_eqb (a b : ereal) : bool :=
  match a, b with
  | NegInf, NegInf => true
  | Fin x, Fin y => Qeq_bool x y
  | PosInf, PosInf => true
  | _, _ => false
  end.

Definition ereal_leb (a b : ereal) : bool := ereal_ltb a b || ereal_eqb a b.

Definition isNaN (a : number) : bool :=
  match a with NaN => true | Num _ => false end.

(** Strings are sequences of 8-bit code units.  White space, as [trim] and
    [parseInt] see it, in that range: TAB, LF, VT, FF, CR, SP and NBSP. *)
Definition is_white (c : ascii) : bool :=
  let n := Z.of_N (N_of_ascii c) in
  ((9 <=? n) && (n <=? 13)) || (n =? 32) || (n =? 160).

Fixpoint trimStart (s : string) : string :=
  match s with
  | String c r => if is_white c then trimStart r else s
  | EmptyString => EmptyString
  end.

Definition trim (s : string) : string :=
  String.rev (trimStart (String.rev (trimStart s))).

(** The value of one digit in the given radix, if it is one. *)
Definition digit_of (radix : Z) (c : ascii) : option Z :=
  let n := Z.of_N (N_of_ascii c) in
  let d := if (48 <=? n) && (n <=? 57) then n - 48
           else if (97 <=? n) && (n <=? 122) then n - 87
           else if (65 <=? n) && (n <=? 90) then n - 55
           else radix in
  if d <? radix then Some d else None.

(** The longest prefix of digits; [None] when there is not even one. *)
Fixpoint digits (radix : Z) (acc : option Z) (s : string) : option Z :=
  match s with
  | String c r =>
      match digit_of radix c with
      | Some d => digits radix (Some (default 0 acc * radix + d)) r
      | None => acc
      end
  | EmptyString => acc
  end.

(** [parseInt(s)] with no radix argument: leading white space, a sign, an
    optional [0x], then digits up to the first other character; NaN when no
    digit is found.  The integer is kept exact; JavaScript rounds it to a
    double, which is the same number up to 2^53. *)
Definition parseInt (s : string) : number :=
  let s1 := trimStart s in
  let '(sign, s2) :=
    match s1 with
    | String "-" r => (-1, r)
    | String "+" r => (1, r)
    | _ => (1, s1)
    end in
  let '(radix, s3) :=
    match s2 with
    | String "0" (String "x" r) => (16, r)
    | String "0" (String "X" r) => (16, r)
    | _ => (10, s2)
    end in
  match digits radix None s3 with
  | Some n => Num (of_Z (sign * n))
  | None => NaN
  end.

(** A value as a request body carries it after [express.json()]: what
    JSON can spell, and undefined for a property that is absent.  An array
    comes with its elements and with [text], the string [ToPrimitive]
    turns it into (its elements joined by commas); of a plain object only
    its being one is kept, and its string is [[object Object]]. *)
#[warnings="-register-all"]
Inductive value :=
  | Undefined
  | Null
  | Bool (b : bool)
  | Number (x : ereal)
  | Str (s : string)
  | Array (items : list value) (text : string)
  | Object.

(** [!v] *)
Definition falsy (v : value) : bool :=
  match v with
  | Undefined | Null => true
  | Bool b => negb b
  | Number x => ereal_eqb x (of_Z 0)
  | Str s => bool_decide (s = EmptyString)
  | Array _ _ | Object => false
  end.

(** [TimeClip]: the time value of a number, NaN beyond 8.64e15 ms. *)
Definition TimeClip (x : ereal) : number :=
  match x with
  | Fin q =>
      if Qle_bool (Qabs q) (inject_Z 8640000000000000)
      then Num (of_Z (if Qle_bool 0 q then Qfloor q else Qceiling q))
      else NaN
  | _ => NaN
  end.

Section dates.
(** [Date.parse]: which strings are dates, beyond the ISO format, is up
    to the engine. *)
Variable Date_parse : string → number.

(** The time value of [new Date(v)]. *)
Definition new_Date (v : value) : number :=
  match v with
  | Undefined => NaN
  | Null => Num (of_Z 0)
  | Bool b => Num (of_Z (if b then 1 else 0))
  | Number x => TimeClip x
  | Str s => Date_parse s
  | Array _ text => Date_parse text
  | Object => Date_parse "[object Object]"
  end.
End dates.

(** Days since 1970-01-01 of a civil date, and back (proleptic Gregorian
    calendar, the one of ECMAScript and of SQLite). *)
Definition days_from_civil (y m d : Z) : Z :=
  let y' := if m <=? 2 then y - 1 else y in
  let era := y' / 400 in
  let yoe := y' - era * 400 in
  let doy := (153 * (if 2 <? m then m - 3 else m + 9) + 2) / 5 + d - 1 in
  let doe := yoe * 365 + yoe / 4 - yoe / 100 + doy in
  era * 146097 + doe - 719468.

Definition civil_from_days (days : Z) : Z * Z * Z :=
  let z := days + 719468 in
  let era := z / 146097 in
  let doe := z - era * 146097 in
  let yoe := (doe - doe / 1460 + doe / 36524 - doe / 146096) / 365 in
  let doy := doe - (365 * yoe + yoe / 4 - yoe / 100) in
  let mp := (5 * doy + 2) / 153 in
  let d := doy - (153 * mp + 2) / 5 + 1 in
  let m := if mp <? 10 then mp + 3 else mp - 9 in
  ((if m <=? 2 then yoe + era * 400 + 1 else yoe + era * 400), m, d).

(** A string of decimal digits only. *)
Definition decimal (s : string) : option Z :=
  if forallb (λ c, bool_decide (is_Some (digit_of 10 c))) (list_ascii_of_string s)
  then digits 10 None s else None.

(** An engine that parses exactly what [Date.prototype.toISOString]
    prints, [YYYY-MM-DDTHH:mm:ss.sssZ], which every engine accepts; it is
    used where a concrete engine is needed. *)
Definition Date_parse_iso (s : string) : number :=
  let part a n := decimal (String.substring a n s) in
  let sep a c := bool_decide (String.get a s = Some c) in
  match (part 0 4, part 5 2, part 8 2, part 11 2, part 14 2, part 17 2, part 20 3)%nat with
  | (Some y, Some m, Some d, Some hh, Some mm, Some ss, Some ms) =>
      if (String.length s =? 24)%nat
         && sep 4%nat "-"%char && sep 7%nat "-"%char && sep 10%nat "T"%char
         && sep 13%nat ":"%char && sep 16%nat ":"%char && sep 19%nat "."%char
         && sep 23%nat "Z"%char
         && (1 <=? m) && (m <=? 12) && (1 <=? d)
         && (d <=? days_from_civil (if m =? 12 then y + 1 else y)
                                  (if m =? 12 then 1 else m + 1) 1
                   - days_from_civil y m 1)
         && (hh <? 24) && (mm <? 60) && (ss <? 60)
      then Num (of_Z ((((days_from_civil y m d * 24 + hh) * 60 + mm) * 60 + ss)
                      * 1000 + ms))
      else NaN
  | _ => NaN
  end.

End JS.

(* ===================================================================== *)
(** * The puzzle engine: class TowerOfHanoi *)
(* ===================================================================== *)

Module Hanoi.

(** A disk is the [div] element the game creates; the only data the game
    ever reads back from it is [style.width]. *)
Record disk := Disk { className : string; style_width : string }.

#[global] Instance disk_eq_dec : EqDecision disk.
Proof. solve_decision. Defined.

(** The fields of the game object that the click handlers read or write.
    A tower is an array with its bottom disk first: [push] and [pop] work
    at the end of the list. *)
Record game := Game {
  towers : list (list disk);
  selectedTower : option nat;
  moves : nat;
  isPlaying : bool
}.

Definition numDisks : nat := 6.

Definition set_towers (ts : list (list disk)) (g : game) : game :=
  Game ts (selectedTower g) (moves g) (isPlaying g).
Definition set_selectedTower (s : option nat) (g : game) : game :=
  Game (towers g) s (moves g) (isPlaying g).
Definition set_moves (m : nat) (g : game) : game :=
  Game (towers g) (selectedTower g) m (isPlaying g).
Definition set_isPlaying (b : bool) (g : game) : game :=
  Game (towers g) (selectedTower g) (moves g) b.

(** [disk.style.width = `${i * 25 + 20}px`], for the disk of rank [i].
    The width is written in decimal digits, as the template writes it
    while [i * 25 + 20] is below 2^53; beyond, JavaScript has rounded the
    number, and from 1e21 it writes an exponent. *)
Definition createDisk (i : nat) : disk :=
  Disk "disk" (pretty (Z.of_nat i * 25 + 20) +:+ "px").

(** [this.towers[t].push(d)]; [None] when [this.towers[t]] is undefined. *)
Definition push (t : nat) (d : disk) (ts : list (list disk))
  : option (list (list disk)) :=
  tw ← ts !! t; Some (<[t := tw ++ [d]]> ts).

(** The loop of [initializeGame], [i] counting down to 1. *)
Fixpoint initializeGame_from (i : nat) (ts : list (list disk))
  : option (list (list disk)) :=
  match i with
  | O => Some ts
  | S j => ts' ← push 0 (createDisk i) ts; initializeGame_from j ts'
  end.

Definition initializeGame (g : game) : option game :=
  ts ← initializeGame_from numDisks (towers g); Some (set_towers ts g).

(** The constructor: the field initialisers, then [initializeGame]. *)
Definition constructor : option game :=
  initializeGame (Game [[]; []; []] None 0 false).

Definition startGame (g : game) : game :=
  if isPlaying g then g else set_isPlaying true g.

(** The size the game compares: [parseInt(disk.style.width)]. *)
Definition size (d : disk) : JS.number := JS.parseInt (style_width d).

Definition isValidMove (fromTower toTower : nat) (g : game) : option bool :=
  if decide (fromTower = toTower) then Some false
  else
    tf ← towers g !! fromTower;
    if decide (length tf = 0%nat) then Some false
    else
      tt ← towers g !! toTower;
      if decide (length tt = 0%nat) then Some true
      else
        fromDisk ← last tf;
        toDisk ← last tt;
        Some (JS.ltb (size fromDisk) (size toDisk)).

(** [moveDisk]: [pop] from one array, [push] on the other.  On an empty
    source [pop] yields undefined and [removeChild(undefined)] throws; the
    click handler never calls it there. *)
Definition moveDisk (fromTower toTower : nat) (g : game) : option game :=
  tf ← towers g !! fromTower;
  d ← last tf;
  ts ← push toTower d (<[fromTower := removelast tf]> (towers g));
  Some (set_towers ts g).

Definition checkWin (g : game) : option bool :=
  t ← towers g !! 2%nat; Some (bool_decide (length t = numDisks)).

(** [handleWin] stops the clock and leaves play; the score it then posts
    is built from [moves] and does not change the game. *)
Definition handleWin (g : game) : game := set_isPlaying false g.

Definition handleTowerClick (towerIndex : nat) (g : game) : option game :=
  if negb (isPlaying g) then Some g
  else
    match selectedTower g with
    | None =>
        t ← towers g !! towerIndex;
        if decide (0 < length t)%nat
        then Some (set_selectedTower (Some towerIndex) g)
        else Some g
    | Some sel =>
        tsel ← towers g !! sel;
        _ ← last tsel;
        valid ← isValidMove sel towerIndex g;
        if valid : bool then
          g1 ← moveDisk sel towerIndex g;
          let g2 := set_moves (S (moves g1)) g1 in
          won ← checkWin g2;
          let g3 := if won : bool then handleWin g2 else g2 in
          Some (set_selectedTower None g3)
        else Some (set_selectedTower None g)
    end.

(** [resetGame]: every tower is emptied in place, the counters are
    cleared, and [initializeGame] runs again. *)
Definition resetGame (g : game) : option game :=
  initializeGame (Game ((λ _, []) <$> towers g) None 0 false).

(** What the page can do to the game: the two buttons and a click on one
    of the three tower elements. *)
Inductive event := StartClick | ResetClick | TowerClick (index : nat).

Definition handle (e : event) (g : game) : option game :=
  match e with
  | StartClick => Some (startGame g)
  | ResetClick => resetGame g
  | TowerClick i => handleTowerClick i g
  end.

(** The listeners are registered for the indices of [towerElements]. *)
Definition wired (e : event) : Prop :=
  match e with TowerClick i => (i < 3)%nat | _ => True end.

(** The states the page can bring the game to. *)
Inductive reachable : game → Prop :=
  | reachable_new g : constructor = Some g → reachable g
  | reachable_event g e g' :
      reachable g → wired e → handle e g = Some g' → reachable g'.

(** Running a list of events; an event whose handler throws is dropped. *)
Fixpoint run (es : list event) (g : game) : game :=
  match es with
  | [] => g
  | e :: es' => run es' (default g (handle e g))
  end.

(** The stack the game starts from, bottom disk first. *)
Definition full_stack : list disk := createDisk <$> [6; 5; 4; 3; 2; 1]%nat.

(** [a] may carry [b]: [b] is strictly smaller. *)
Definition carries (a b : disk) : Prop := JS.ltb (size b) (size a) = true.

(** A legal move, in the words of the specification: the pegs differ, the
    source peg is not empty, and the target peg is empty or its top disk
    is larger than the top disk of the source. *)
Definition legal (fromPeg toPeg : nat) (g : game) : Prop :=
  fromPeg ≠ toPeg ∧
  ∃ tf tt, towers g !! fromPeg = Some tf ∧ towers g !! toPeg = Some tt ∧
    tf ≠ [] ∧
    (tt = [] ∨ ∃ df dt, last tf = Some df ∧ last tt = Some dt ∧
                        JS.ltb (size df) (size dt) = true).

#[global] Instance carries_dec : RelDecision carries.
Proof. intros a b. unfold carries. apply _. Defined.

(** A tower is in order when every disk carries all the disks above it. *)
Definition descending (t : list disk) : Prop := StronglySorted carries t.

#[global] Instance descending_dec (t : list disk) : Decision (descending t).
Proof. unfold descending. apply _. Defined.

(** What every handler preserves: three towers, each in order, holding
    the six disks between them, and a selected tower that has a top disk. *)
Record inv (g : game) : Prop := Inv {
  inv_three : length (towers g) = 3%nat;
  inv_sorted : Forall descending (towers g);
  inv_disks : concat (towers g) ≡ₚ full_stack;
  inv_selected : ∀ s, selectedTower g = Some s →
                   ∃ t, towers g !! s = Some t ∧ t ≠ []
}.

(** A game in progress: started, the smallest disk moved to the last
    tower, and the first tower selected again. *)
Definition mid_game : game :=
  run [StartClick; TowerClick 0; TowerClick 2; TowerClick 0]
      (Game [full_stack; []; []] None 0 false).

End Hanoi.

(* ===================================================================== *)
(** * The scores table *)
(* ===================================================================== *)

Module Sql.
Import JS.

(** A row of [scores]: the five columns both back ends declare, and in
    [rest] the columns a back end adds after them.  The numeric columns
    hold what SQLite can store of a JavaScript number, that is anything
    but NaN. *)
Record row (X : Type) := Row {
  id : Z;
  name : string;
  time : ereal;
  moves : ereal;
  date : string;
  rest : X
}.
Arguments Row {X}.
Arguments id {X}.
Arguments name {X}.
Arguments time {X}.
Arguments moves {X}.
Arguments date {X}.
Arguments rest {X}.

(** The table, its rows in the order of their rowids, with the counter
    SQLite keeps for [AUTOINCREMENT]. *)
Record table (X : Type) := Table {
  rows : list (row X);
  sqlite_sequence : Z
}.
Arguments Table {X}.
Arguments rows {X}.
Arguments sqlite_sequence {X}.

Definition empty {X} : table X := Table [] 0.

(** A value of a result row. *)
Inductive cell := Integer (z : Z) | Numeric (x : ereal) | Text (s : string).

(** A result row, as [.all()] returns it: column names with their values. *)
Definition record := list (string * cell).

(** The SQLite that better-sqlite3 carries is built with SQLITE_DQS=0: a
    double-quoted word of a statement is an identifier, and is not read as
    a string when it names nothing. *)
Definition double_quoted_strings : bool := false.

(** How binding the arguments of [run] fails: a value that cannot be
    bound (a [TypeError]), more or fewer values than the statement has
    parameters (a [RangeError]), and, when the statement runs, NULL for a
    [NOT NULL] column. *)
Inductive failure :=
  | CannotBind
  | TooMany
  | TooFew
  | NotNull (column : string).

(** The message of the exception. *)
Definition message (f : failure) : string :=
  match f with
  | CannotBind => "SQLite3 can only bind numbers, strings, bigints, buffers, and null"
  | TooMany => "Too many parameter values were provided"
  | TooFew => "Too few parameter values were provided"
  | NotNull column => "NOT NULL constraint failed: scores." +:+ column
  end.

(** The values one argument of [run] gives to the anonymous parameters:
    an array gives its elements, a plain object gives named parameters
    only (the statements here have none), any other value gives itself. *)
Definition spread (v : value) : list value :=
  match v with
  | Array items _ => items
  | Object => []
  | _ => [v]
  end.

(** One value as a parameter: numbers and strings as they are, null and
    undefined as NULL; [None] for what better-sqlite3 does not bind. *)
Inductive bound := BNull | BNum (x : ereal) | BText (s : string).

Definition bind (v : value) : option bound :=
  match v with
  | Undefined | Null => Some BNull
  | Number x => Some (BNum x)
  | Str s => Some (BText s)
  | Bool _ | Array _ _ | Object => None
  end.

(** The values are bound one after the other to the [k] parameters, [i]
    of them bound already; the count is compared at the end. *)
Fixpoint bind_from (k i : nat) (vs : list value) : failure + list bound :=
  match vs with
  | [] => if (i <? k)%nat then inl TooFew else inr []
  | v :: vs' =>
      match bind v with
      | None => inl CannotBind
      | Some b =>
          if (k <=? i)%nat then inl TooMany
          else match bind_from k (S i) vs' with
               | inl f => inl f
               | inr bs => inr (b :: bs)
               end
      end
  end.

(** [statement.run(...args)] up to the execution, for [k] parameters. *)
Definition bind_all (k : nat) (args : list value) : failure + list bound :=
  bind_from k 0 (concat (spread <$> args)).

Section statements.
Context {X : Type}.

(** [ORDER BY moves ASC, time ASC]: [r1] may come before [r2]. *)
Definition asc_leb (r1 r2 : row X) : bool :=
  ereal_ltb (moves r1) (moves r2)
  || (ereal_eqb (moves r1) (moves r2) && ereal_leb (time r1) (time r2)).

Definition moves_time_asc (r1 r2 : row X) : Prop := asc_leb r1 r2 = true.

(** [ORDER BY moves DESC, time DESC] *)
Definition moves_time_desc (r1 r2 : row X) : Prop := asc_leb r2 r1 = true.

#[global] Instance moves_time_asc_dec : RelDecision moves_time_asc.
Proof. intros r1 r2. unfold moves_time_asc. apply _. Defined.

#[global] Instance moves_time_desc_dec : RelDecision moves_time_desc.
Proof. intros r1 r2. unfold moves_time_desc. apply _. Defined.

(** [ORDER BY]: the rows in the order of their keys; rows with equal
    keys stay in the order the table has them, which is what SQLite
    answers on this table.  [place] puts a row in front of the first one
    it may come before. *)
Fixpoint place (leb : row X → row X → bool) (r : row X) (l : list (row X))
  : list (row X) :=
  match l with
  | [] => [r]
  | r' :: l' => if leb r r' then r :: l else r' :: place leb r l'
  end.

Definition order_by (leb : row X → row X → bool) (l : list (row X))
  : list (row X) :=
  foldr (place leb) [] l.

Definition order_by_moves_time_asc (l : list (row X)) : list (row X) :=
  order_by asc_leb l.

Definition order_by_moves_time_desc (l : list (row X)) : list (row X) :=
  order_by (λ r1 r2, asc_leb r2 r1) l.

(** [SELECT COUNT( * ) FROM scores] *)
Definition count (t : table X) : Z := Z.of_nat (length (rows t)).

(** [SELECT id FROM scores ORDER BY moves DESC, time DESC LIMIT 1] *)
Definition worst_id (t : table X) : option Z :=
  id <$> head (take 1 (order_by_moves_time_desc (rows t))).

(** [DELETE FROM scores WHERE id = (SELECT id ... LIMIT 1)]; on an empty
    table the subquery is NULL and no row matches. *)
Definition delete_worst (t : table X) : table X :=
  match worst_id t with
  | Some w => Table (filter (λ r, id r ≠ w) (rows t)) (sqlite_sequence t)
  | None => t
  end.

(** [DELETE FROM scores] *)
Definition delete_all (t : table X) : table X := Table [] (sqlite_sequence t).

(** The rowid of the next insert: one more than the largest rowid the
    table has ever held. *)
Definition next_rowid (t : table X) : Z :=
  1 + foldr Z.max (sqlite_sequence t) (id <$> rows t).

(** How SQLite writes a number it has to keep in a TEXT column. *)
Variable text_of_number : ereal → string.

(** [INSERT INTO scores (name, time, moves, date, ...) VALUES (?, ...)]
    run on [(name, time, moves, date, ...after)], for a string name and
    numeric time and moves; [after] are the arguments behind the date and
    [x] the columns they fill.  The result is the exception thrown, or
    the new rowid and table.  The statement runs only when the arguments
    give as many values as it has parameters, that is when the date
    gives exactly one; that value goes to a [TEXT NOT NULL] column as it
    was bound. *)
Definition insert (n : string) (t m : ereal) (d : value) (after : list value)
           (x : X) (tb : table X) : failure + (Z * table X) :=
  match bind_all (4 + length after) ([Str n; Number t; Number m; d] ++ after) with
  | inl f => inl f
  | inr bs =>
      let i := next_rowid tb in
      match bs !! 3%nat with
      | Some (BText str) => inr (i, Table (rows tb ++ [Row i n t m str x]) i)
      | Some (BNum q) =>
          inr (i, Table (rows tb ++ [Row i n t m (text_of_number q) x]) i)
      | _ => inl (NotNull "date")
      end
  end.

(** The five columns of [SELECT id, name, time, moves, date]. *)
Definition select_id_name_time_moves_date (r : row X) : record :=
  [("id", Integer (id r)); ("name", Text (name r)); ("time", Numeric (time r));
   ("moves", Numeric (moves r)); ("date", Text (date r))].

(** [... FROM scores ORDER BY moves ASC, time ASC LIMIT 10] *)
Definition top10 (t : table X) : list (row X) :=
  take 10 (order_by_moves_time_asc (rows t)).

End statements.

Definition pad2 (n : Z) : string :=
  if n <? 10 then "0" +:+ pretty n else pretty n.

Definition pad4 (n : Z) : string :=
  if n <? 10 then "000" +:+ pretty n
  else if n <? 100 then "00" +:+ pretty n
  else if n <? 1000 then "0" +:+ pretty n
  else pretty n.

(** [datetime] of an instant given in seconds since 1970:
    [YYYY-MM-DD HH:MM:SS], in UTC. *)
Definition datetime (unix : Z) : string :=
  let '(y, m, d) := civil_from_days (unix / 86400) in
  let s := unix mod 86400 in
  pad4 y +:+ "-" +:+ pad2 m +:+ "-" +:+ pad2 d +:+ " "
  +:+ pad2 (s / 3600) +:+ ":" +:+ pad2 (s mod 3600 / 60) +:+ ":" +:+ pad2 (s mod 60).

(** [datetime('now', '-1 hour')], with its arguments as strings, when the
    clock shows [now] milliseconds. *)
Definition an_hour_ago (now : Z) : string := datetime ((now - 3600000) / 1000).

(** A table at capacity: rows 1 to 100, row [k] with [100 + k] moves in
    500 seconds, so that the last row, (moves 200, time 500), is the worst. *)
Definition hundred_rows {X} (x : X) : list (row X) :=
  (λ k, Row k "player" (of_Z 500) (of_Z (100 + k)) "2024-01-01T00:00:00.000Z" x)
    <$> seqZ 1 100.

Definition full_table {X} (x : X) : table X := Table (hundred_rows x) 100.

(** A rendering of numbers as text for the examples, right on integers. *)
Definition text_of_integer (x : ereal) : string :=
  match x with
  | NegInf => "-Inf"
  | Fin q => pretty (Qfloor q)
  | PosInf => "Inf"
  end.

End Sql.

(* ===================================================================== *)
(** * HTTP *)
(* ===================================================================== *)

Module Http.

(** The JSON bodies the two back ends send. *)
Inductive body :=
  | Error (error : string)
  | Id (id : Z)
  | Scores (l : list Sql.record)
  | Message (message : string).

Record response := Response { status : Z; json : body }.

(** The body of a POST, destructured as [validateScore] does. *)
Record score := Score {
  name : JS.value;
  time : JS.value;
  moves : JS.value;
  date : JS.value
}.

(** The conditions of the specification on a submitted score. *)

(** The name is a string that is not empty once trimmed. *)
Definition nonempty_string (v : JS.value) : bool :=
  match v with
  | JS.Str s => negb (String.length (JS.trim s) =? 0)%nat
  | _ => false
  end.

(** The name has more than [n] characters. *)
Definition longer_than (n : nat) (v : JS.value) : bool :=
  match v with
  | JS.Str s => (n <? String.length s)%nat
  | _ => false
  end.

(** The value is a number [x] with [lo <= x <= hi]. *)
Definition number_between (lo hi : Z) (v : JS.value) : bool :=
  match v with
  | JS.Number x => JS.ereal_leb (JS.of_Z lo) x && JS.ereal_leb x (JS.of_Z hi)
  | _ => false
  end.

(** The value is a number [x] with [lo <= x]. *)
Definition number_at_least (lo : Z) (v : JS.value) : bool :=
  match v with
  | JS.Number x => JS.ereal_leb (JS.of_Z lo) x
  | _ => false
  end.

End Http.

(* ===================================================================== *)
(** * src/server.js *)
(* ===================================================================== *)

Module Server.
Import JS Http.

(** The table of this back end has one more column, [ip_address]. *)
Abbreviation db := (Sql.table string).
Abbreviation ip_address := (@Sql.rest string).

(** What a call of [validateScore] comes to: [{ valid: true }], or
    [{ valid: false, error }], or an exception. *)
Inductive validation := Valid | Invalid (error : string) | Throws.

(** [Math.pow(2, 6) - 1] *)
Definition minMoves : Z := 2 ^ 6 - 1.

(** [db.prepare('SELECT COUNT( * ) as count FROM scores WHERE ip_address = ?
    AND date > datetime("now", "-1 hour")').get(ip)].  The words [now] and
    [-1 hour] are in double quotes and [scores] has no column of either
    name: [prepare] throws (no such column), which is [None].  Were
    double-quoted strings on, the two words would be strings and the
    count that of the rows of the sender dated after an hour ago, both
    sides of [>] being text and compared byte by byte. *)
Definition recent_count (now : Z) (ip : string) (t : db) : option Z :=
  if Sql.double_quoted_strings
  then Some (Z.of_nat (length (filter
         (λ r, ip_address r = ip
               ∧ String.ltb (Sql.an_hour_ago now) (Sql.date r) = true)
         (Sql.rows t))))
  else None.

Section engine.
Variable Date_parse : string → number.
Variable text_of_number : ereal → string.

(** [validateScore(score, ip)], at the instant [now] (milliseconds since
    1970, what [new Date()] shows).  The tests [typeof v !== 'string'] and
    [typeof v !== 'number'] are the last cases of the matches. *)
Definition validateScore (now : Z) (sc : score) (ip : string) (t : db)
  : validation :=
  match name sc with
  | Str n =>
      if falsy (Str n) || (String.length (trim n) =? 0)%nat
      then Invalid "Invalid name"
      else if (50 <? String.length n)%nat then Invalid "Name too long"
      else
        match time sc with
        | Number tm =>
            if ereal_ltb tm (of_Z 0) || ereal_ltb (of_Z 3600) tm
            then Invalid "Invalid time"
            else
              match moves sc with
              | Number mv =>
                  if ereal_ltb mv (of_Z 0) then Invalid "Invalid moves"
                  else if ereal_ltb mv (of_Z minMoves)
                  then Invalid "Invalid number of moves"
                  else
                    let scoreDate := new_Date Date_parse (date sc) in
                    if isNaN scoreDate || gtb scoreDate (Num (of_Z now))
                    then Invalid "Invalid date"
                    else
                      match recent_count now ip t with
                      | None => Throws
                      | Some recentScores =>
                          if 5 <=? recentScores
                          then Invalid "Too many submissions from this IP"
                          else Valid
                      end
              | _ => Invalid "Invalid moves"
              end
        | _ => Invalid "Invalid time"
        end
  | _ => Invalid "Invalid name"
  end.

(** [app.get('/api/scores')] *)
Definition get_scores (t : db) : response * db :=
  (Response 200 (Scores (Sql.select_id_name_time_moves_date <$> Sql.top10 t)), t).

(** The [try] block of [app.post('/api/scores')], lines 122 to 135, for
    a score whose name is a string and whose time and moves are numbers,
    as [validateScore] leaves them.  The delete and the insert are two
    statements: when the insert throws, the delete stays done. *)
Definition store_score (ip n : string) (tm mv : ereal) (d : value) (t : db)
  : response * db :=
  let t1 := if 100 <=? Sql.count t then Sql.delete_worst t else t in
  match Sql.insert text_of_number n tm mv d [Str ip] ip t1 with
  | inr (i, t2) => (Response 200 (Id i), t2)
  | inl _ => (Response 500 (Error "Internal server error"), t1)
  end.

(** [app.post('/api/scores')].  [validateScore] is called before the
    [try]: what it throws goes to the error-handling middleware (lines
    139 to 142), which answers 500. *)
Definition post_scores (now : Z) (ip : string) (sc : score) (t : db)
  : response * db :=
  match validateScore now sc ip t with
  | Invalid e => (Response 400 (Error e), t)
  | Throws => (Response 500 (Error "Internal server error"), t)
  | Valid =>
      match name sc, time sc, moves sc with
      | Str n, Number tm, Number mv => store_score ip n tm mv (date sc) t
      | _, _, _ =>
          (* not reached: a valid score has a string and two numbers *)
          (Response 500 (Error "Internal server error"), t)
      end
  end.

(** A request, with what the server reads besides its body: the clock
    and the address of the sender. *)
Inductive request :=
  | GET
  | POST (now : Z) (ip : string) (sc : score).

Definition handle (r : request) (t : db) : response * db :=
  match r with
  | GET => get_scores t
  | POST now ip sc => post_scores now ip sc t
  end.

(** Serving requests one after the other: the responses and the table. *)
Fixpoint serve (rs : list request) (t : db) : list response * db :=
  match rs with
  | [] => ([], t)
  | r :: rs' =>
      let '(resp, t1) := handle r t in
      let '(resps, t2) := serve rs' t1 in
      (resp :: resps, t2)
  end.

End engine.

End Server.

(* ===================================================================== *)
(** * The second back end (src/unnamed/part_001) *)
(* ===================================================================== *)

Module PlainServer.
Import JS Http.

(** Its table has the five shared columns and no other. *)
Abbreviation db := (Sql.table unit).

Inductive validation := Valid | Invalid (error : string).

Definition minMoves : Z := 2 ^ 6 - 1.

(** [validateScore(score)]; the [typeof] tests are the last cases of the
    matches. *)
Definition validateScore (sc : score) : validation :=
  match name sc with
  | Str n =>
      if falsy (Str n) || (String.length (trim n) =? 0)%nat
      then Invalid "Invalid name"
      else
        match time sc with
        | Number tm =>
            if ereal_ltb tm (of_Z 0) then Invalid "Invalid time"
            else
              match moves sc with
              | Number mv =>
                  if ereal_ltb mv (of_Z 0) then Invalid "Invalid moves"
                  else if ereal_ltb mv (of_Z minMoves)
                  then Invalid "Invalid number of moves"
                  else Valid
              | _ => Invalid "Invalid moves"
              end
        | _ => Invalid "Invalid time"
        end
  | _ => Invalid "Invalid name"
  end.

(** [SELECT * FROM scores ...]: every column of this table. *)
Definition get_scores (t : db) : response * db :=
  (Response 200 (Scores (Sql.select_id_name_time_moves_date <$> Sql.top10 t)), t).

Section engine.
Variable text_of_number : ereal → string.

(** [app.post('/api/scores')]; a failed insert answers with the message
    of the exception. *)
Definition post_scores (sc : score) (t : db) : response * db :=
  match validateScore sc with
  | Invalid e => (Response 400 (Error e), t)
  | Valid =>
      match name sc, time sc, moves sc with
      | Str n, Number tm, Number mv =>
          match Sql.insert text_of_number n tm mv (date sc) [] () t with
          | inr (i, t1) => (Response 200 (Id i), t1)
          | inl err => (Response 500 (Error (Sql.message err)), t)
          end
      | _, _, _ =>
          (* not reached: a valid score has a string and two numbers *)
          (Response 500 (Error "Internal server error"), t)
      end
  end.
End engine.

(** [app.delete('/api/scores')] *)
Definition delete_scores (t : db) : response * db :=
  (Response 200 (Message "All scores deleted successfully"), Sql.delete_all t).

End PlainServer.

(* ===================================================================== *)
(** * Requests used in the examples *)
(* ===================================================================== *)

Module Samples.
Import JS Http.

(** 2026-11-02T08:00:00Z, in milliseconds. *)
Definition now0 : Z := 1793606400000.

Definition ip0 : string := "203.0.113.7".

Definition submission (n : value) (t m : ereal) (d : string) : score :=
  Score n (Number t) (Number m) (Str d).

(** A score a minute old. *)
Definition good : score :=
  submission (Str "ana") (of_Z 120) (of_Z 70) "2026-11-02T07:59:00.000Z".

Definition few_moves : score :=
  submission (Str "ana") (of_Z 120) (Fin (125 # 2)) "2026-11-02T07:59:00.000Z".



Definition slow : score :=
  submission (Str "ana") (of_Z 5000) (of_Z 70) "2026-11-02T07:59:00.000Z".


(** Six POSTs of one body from one address, a minute apart. *)
Definition six_posts (sc : score) : list Server.request :=
  (λ k, Server.POST (now0 + k * 60000) ip0 sc) <$> seqZ 0 6.

(** src/server.js on the engine of the examples. *)
Definition post := Server.post_scores Date_parse_iso Sql.text_of_integer.
Definition serve_all := Server.serve Date_parse_iso Sql.text_of_integer.

End Samples.

(* ===================================================================== *)
(** * How far a position is from the goal *)
(* ===================================================================== *)

Module Solve.
Import Hanoi.

(** The tower a disk is on: the first one that has it. *)
Fixpoint peg_of (d : disk) (ts : list (list disk)) : nat :=
  match ts with
  | [] => 0
  | t :: ts' => if decide (d ∈ t) then 0 else S (peg_of d ts')
  end.

(** The moves it takes to bring the disks [ds], largest first, onto the
    tower [target]: a disk that is elsewhere needs the smaller ones out of
    its way on the third tower, its own move, and the smaller ones back. *)
Fixpoint to_goal (ds : list disk) (target : nat) (ts : list (list disk)) : nat :=
  match ds with
  | [] => 0
  | d :: rest =>
      let p := peg_of d ts in
      if decide (p = target) then to_goal rest target ts
      else 2 ^ length rest + to_goal rest (3 - p - target) ts
  end.

Definition distance (ts : list (list disk)) : nat := to_goal full_stack 2 ts.

(** Every way to put the disks [ds] on three towers in order. *)
Fixpoint placements (ds : list disk) : list (list (list disk)) :=
  match ds with
  | [] => [[[]; []; []]]
  | d :: rest =>
      ts ← placements rest; (λ p, alter (d ::.) p ts) <$> [0; 1; 2]%nat
  end.

Definition positions : list (list (list disk)) := placements full_stack.

(** A game in play on given towers. *)
Definition at_play (ts : list (list disk)) : game := Game ts None 0 true.

(** One move that [isValidMove] allows stays among the positions and
    brings the goal nearer by one move at most. *)
Definition step_ok (ts : list (list disk)) (ij : nat * nat) : bool :=
  match isValidMove ij.1 ij.2 (at_play ts) with
  | Some true =>
      match moveDisk ij.1 ij.2 (at_play ts) with
      | Some g1 => bool_decide (towers g1 ∈ positions)
                   && bool_decide (distance ts ≤ distance (towers g1) + 1)%nat
      | None => false
      end
  | _ => true
  end.

Definition pairs : list (nat * nat) :=
  i ← [0; 1; 2]%nat; j ← [0; 1; 2]%nat; [(i, j)].

Definition steps_ok : bool :=
  forallb (λ ts, forallb (step_ok ts) pairs) positions.

(** Where [checkWin] holds there is nothing left to do. *)
Definition wins_ok : bool :=
  forallb (λ ts, match checkWin (at_play ts) with
                 | Some true => bool_decide (distance ts = 0%nat)
                 | _ => true
                 end) positions.

(** The clicks that move [n] disks from tower [a] to tower [b] by way of
    tower [c]. *)
Fixpoint solve (n a b c : nat) : list event :=
  match n with
  | O => []
  | S m => solve m a c b ++ [TowerClick a; TowerClick b] ++ solve m c b a
  end.

(** Start, then the shortest game. *)
Definition shortest_game : list event := StartClick :: solve numDisks 0 2 1.

End Solve.

(* ===================================================================== *)
(** * What the game posts: saveScore *)
(* ===================================================================== *)

Module Submit.
Import JS Hanoi.

(** [Math.pow(2, this.numDisks) - 1] *)
Definition minMoves : nat := 2 ^ numDisks - 1.

Definition pad3 (n : Z) : string :=
  if n <? 10 then "00" +:+ pretty n
  else if n <? 100 then "0" +:+ pretty n
  else pretty n.

Definition pad6 (n : Z) : string :=
  if n <? 10 then "00000" +:+ pretty n
  else if n <? 100 then "0000" +:+ pretty n
  else if n <? 1000 then "000" +:+ pretty n
  else if n <? 10000 then "00" +:+ pretty n
  else if n <? 100000 then "0" +:+ pretty n
  else pretty n.

(** [new Date(ms).toISOString()]; years outside 0..9999 are written with a
    sign and six digits. *)
Definition toISOString (ms : Z) : string :=
  let '(y, m, d) := civil_from_days (ms / 86400000) in
  let r := ms mod 86400000 in
  (if (0 <=? y) && (y <=? 9999) then Sql.pad4 y
   else if y <? 0 then "-" +:+ pad6 (- y) else "+" +:+ pad6 y)
  +:+ "-" +:+ Sql.pad2 m +:+ "-" +:+ Sql.pad2 d
  +:+ "T" +:+ Sql.pad2 (r / 3600000)
  +:+ ":" +:+ Sql.pad2 (r mod 3600000 / 60000)
  +:+ ":" +:+ Sql.pad2 (r mod 60000 / 1000)
  +:+ "." +:+ pad3 (r mod 1000) +:+ "Z".

(** [saveScore(time)]: the body of the POST it sends, if it sends one.
    [playerName] is what [prompt] returned ([None] for null), [clock] is
    what [new Date()] shows.  No request is made when the prompt is
    cancelled or left empty, or when the counter is below [minMoves]. *)
Definition saveScore (playerName : option string) (time clock : Z) (g : game)
  : option Http.score :=
  match playerName with
  | None => None
  | Some n =>
      if bool_decide (n = EmptyString) then None
      else if (moves g <? minMoves)%nat then None
      else Some (Http.Score (Str (trim n)) (Number (of_Z time))
                            (Number (of_Z (Z.of_nat (moves g))))
                            (Str (toISOString clock)))
  end.

(** [s.padStart(2, '0')] *)
Definition padStart2 (s : string) : string :=
  if (String.length s <? 2)%nat
  then String.concat "" (replicate (2 - String.length s) "0") +:+ s
  else s.

(** [updateTimer()]: the text it writes to the clock when [Date.now()] is
    [now] and the game started at [startTime], both whole milliseconds.
    The three numbers are whole, and are written in decimal digits, as
    JavaScript writes a whole number (below 1e21, and these are below
    2^53 as long as the difference of the two instants is). *)
Definition updateTimer (startTime now : Z) : string :=
  let elapsed := (now - startTime) / 1000 in
  let minutes := elapsed / 60 in
  let seconds := Z.rem elapsed 60 in
  pretty minutes +:+ ":" +:+ padStart2 (pretty seconds).

End Submit.

(* ===================================================================== *)
(** * Requests to the second back end *)
(* ===================================================================== *)

Module PlainRun.
Import JS Http.

Section engine.
Variable text_of_number : ereal → string.

Inductive request :=
  | GET
  | POST (sc : score)
  | DELETE.

Definition handle (r : request) (t : PlainServer.db) : response * PlainServer.db :=
  match r with
  | GET => PlainServer.get_scores t
  | POST sc => PlainServer.post_scores text_of_number sc t
  | DELETE => PlainServer.delete_scores t
  end.

Fixpoint serve (rs : list request) (t : PlainServer.db)
  : list response * PlainServer.db :=
  match rs with
  | [] => ([], t)
  | r :: rs' =>
      let '(resp, t1) := handle r t in
      let '(resps, t2) := serve rs' t1 in
      (resp :: resps, t2)
  end.

End engine.

End PlainRun.

(* ===================================================================== *)
(** * What the tables hold *)
(* ===================================================================== *)

Module Stored.
Import JS Http.

(** A row as src/server.js would store it: the checks of its
    [validateScore] on name, time and moves. *)
Definition row_checked (r : Sql.row string) : bool :=
  nonempty_string (Str (Sql.name r))
  && negb (longer_than 50 (Str (Sql.name r)))
  && number_between 0 3600 (Number (Sql.time r))
  && number_at_least 63 (Number (Sql.moves r)).

(** The same for the second back end. *)
Definition plain_row_checked (r : Sql.row unit) : bool :=
  nonempty_string (Str (Sql.name r))
  && number_at_least 0 (Number (Sql.time r))
  && number_at_least 63 (Number (Sql.moves r)).


(** The ids of the answers [{id}]. *)
Definition answered_ids (resps : list response) : list Z :=
  omap (λ r, match json r with Id i => Some i | _ => None end) resps.

(** The rowids are in increasing order and none is above the counter. *)
Definition keyed {X} (t : Sql.table X) : Prop :=
  StronglySorted Z.lt (Sql.id <$> Sql.rows t)
  ∧ Forall (λ r, Sql.id r ≤ Sql.sqlite_sequence t) (Sql.rows t).

End Stored.

(* ===================================================================== *)
(** * Facts about JavaScript comparisons *)
(* ===================================================================== *)

Section js_facts.
Import JS.

Lemma Qltb_lt (x y : Q) : Qltb x y = true ↔ (x < y)%Q.
Proof.
  unfold Qltb. rewrite negb_true_iff, <- not_true_iff_false, Qle_bool_iff.
  split; [apply Qnot_le_lt | apply Qlt_not_le].
Qed.

Lemma ereal_ltb_trans (a b c : ereal) :
  ereal_ltb a b = true → ereal_ltb b c = true → ereal_ltb a c = true.
Proof.
  destruct a, b, c; simpl; try done.
  rewrite !Qltb_lt. apply Qlt_trans.
Qed.

Lemma ereal_ltb_irrefl (a : ereal) : ereal_ltb a a = false.
Proof.
  destruct a; simpl; try done.
  apply not_true_iff_false. rewrite Qltb_lt. apply Qlt_irrefl.
Qed.

Lemma ltb_trans (a b c : number) :
  ltb a b = true → ltb b c = true → ltb a c = true.
Proof. destruct a, b, c; simpl; try done. apply ereal_ltb_trans. Qed.

Lemma ereal_trichotomy (a b : ereal) :
  ereal_ltb a b = true ∨ ereal_eqb a b = true ∨ ereal_ltb b a = true.
Proof.
  destruct a as [|x|], b as [|y|]; simpl; auto.
  rewrite !Qltb_lt, Qeq_bool_iff.
  destruct (Q_dec x y) as [[?|?]|?]; auto.
Qed.

Lemma ereal_eqb_sym (a b : ereal) : ereal_eqb a b = true → ereal_eqb b a = true.
Proof.
  destruct a, b; simpl; try done. rewrite !Qeq_bool_iff. by symmetry.
Qed.

Lemma ereal_eqb_trans (a b c : ereal) :
  ereal_eqb a b = true → ereal_eqb b c = true → ereal_eqb a c = true.
Proof.
  destruct a, b, c; simpl; try done. rewrite !Qeq_bool_iff. apply Qeq_trans.
Qed.

Lemma ereal_ltb_eqb (a b c : ereal) :
  ereal_ltb a b = true → ereal_eqb b c = true → ereal_ltb a c = true.
Proof.
  destruct a, b, c; simpl; try done. rewrite !Qltb_lt, Qeq_bool_iff. lra.
Qed.

Lemma ereal_eqb_ltb (a b c : ereal) :
  ereal_eqb a b = true → ereal_ltb b c = true → ereal_ltb a c = true.
Proof.
  destruct a, b, c; simpl; try done. rewrite !Qltb_lt, Qeq_bool_iff. lra.
Qed.

Lemma ereal_leb_spec (a b : ereal) :
  ereal_leb a b = true ↔ ereal_ltb a b = true ∨ ereal_eqb a b = true.
Proof. unfold ereal_leb. apply orb_true_iff. Qed.

Lemma ereal_leb_trans (a b c : ereal) :
  ereal_leb a b = true → ereal_leb b c = true → ereal_leb a c = true.
Proof.
  rewrite !ereal_leb_spec. intros [?|?] [?|?];
    eauto using ereal_ltb_trans, ereal_ltb_eqb, ereal_eqb_ltb, ereal_eqb_trans.
Qed.

Lemma ereal_leb_total (a b : ereal) :
  ereal_leb a b = true ∨ ereal_leb b a = true.
Proof.
  rewrite !ereal_leb_spec.
  destruct (ereal_trichotomy a b) as [?|[?|?]]; auto using ereal_eqb_sym.
Qed.

Lemma ereal_ltb_leb (a b : ereal) : ereal_ltb a b = negb (ereal_leb b a).
Proof.
  destruct (ereal_ltb a b) eqn:Hab; symmetry.
  - apply negb_true_iff, not_true_iff_false. rewrite ereal_leb_spec.
    intros [Hba|Hba].
    + pose proof (ereal_ltb_trans _ _ _ Hab Hba) as H.
      by rewrite ereal_ltb_irrefl in H.
    + pose proof (ereal_ltb_eqb _ _ _ Hab Hba) as H.
      by rewrite ereal_ltb_irrefl in H.
  - apply negb_false_iff, ereal_leb_spec.
    destruct (ereal_trichotomy a b) as [?|[?|?]];
      [congruence | right; by apply ereal_eqb_sym | by left].
Qed.

Lemma ltb_irrefl (a : number) : ltb a a = false.
Proof. destruct a; simpl; [done|]. apply ereal_ltb_irrefl. Qed.

End js_facts.

(* ===================================================================== *)
(** * Facts about the statements on the table *)
(* ===================================================================== *)

Section sql_facts.
Import JS Sql.
Context {X : Type}.
Implicit Types (r : row X) (l : list (row X)) (t : table X).

Lemma asc_leb_spec r1 r2 :
  asc_leb r1 r2 = true ↔
    ereal_ltb (moves r1) (moves r2) = true
    ∨ (ereal_eqb (moves r1) (moves r2) = true
       ∧ ereal_leb (time r1) (time r2) = true).
Proof. unfold asc_leb. by rewrite orb_true_iff, andb_true_iff. Qed.

#[global] Instance moves_time_asc_total : Total (@moves_time_asc X).
Proof.
  intros r1 r2. unfold moves_time_asc. rewrite !asc_leb_spec.
  destruct (ereal_trichotomy (moves r1) (moves r2)) as [?|[E|?]]; auto.
  destruct (ereal_leb_total (time r1) (time r2)); auto using ereal_eqb_sym.
Qed.

#[global] Instance moves_time_asc_trans : Transitive (@moves_time_asc X).
Proof.
  intros r1 r2 r3. unfold moves_time_asc. rewrite !asc_leb_spec.
  intros [?|[? ?]] [?|[? ?]];
    eauto 6 using ereal_ltb_trans, ereal_ltb_eqb, ereal_eqb_ltb,
                  ereal_eqb_trans, ereal_leb_trans.
Qed.

#[global] Instance moves_time_desc_total : Total (@moves_time_desc X).
Proof. intros r1 r2. destruct (moves_time_asc_total r1 r2); [right|left]; done. Qed.

#[global] Instance moves_time_desc_trans : Transitive (@moves_time_desc X).
Proof. intros r1 r2 r3 H12 H23. by apply (moves_time_asc_trans r3 r2 r1). Qed.

(** [ORDER BY] rearranges the rows and puts them in order. *)
Lemma place_Permutation (leb : row X → row X → bool) r l :
  place leb r l ≡ₚ r :: l.
Proof.
  induction l as [|r' l IH]; [done|]. simpl.
  destruct (leb r r'); [done|]. rewrite IH. apply Permutation_swap.
Qed.

Lemma order_by_Permutation (leb : row X → row X → bool) l :
  order_by leb l ≡ₚ l.
Proof.
  induction l as [|r l IH]; [done|]. unfold order_by in *. simpl.
  by rewrite place_Permutation, IH.
Qed.

Lemma place_sorted (leb : row X → row X → bool) r l :
  Total (λ a b, leb a b = true) → Transitive (λ a b, leb a b = true) →
  StronglySorted (λ a b, leb a b = true) l →
  StronglySorted (λ a b, leb a b = true) (place leb r l).
Proof.
  intros Htot Htr. induction l as [|r' l IH]; intros Hs; simpl.
  - repeat constructor.
  - apply StronglySorted_cons in Hs as [Hall Hs].
    destruct (leb r r') eqn:E.
    + constructor; [by constructor|].
      constructor; [done|]. eapply Forall_impl; [exact Hall|].
      intros a Ha. by apply (Htr r r' a).
    + constructor; [by apply IH|].
      rewrite place_Permutation. constructor; [|done].
      destruct (Htot r r') as [H|H]; [congruence|done].
Qed.

Lemma order_by_sorted (leb : row X → row X → bool) l :
  Total (λ a b, leb a b = true) → Transitive (λ a b, leb a b = true) →
  StronglySorted (λ a b, leb a b = true) (order_by leb l).
Proof.
  intros Htot Htr. induction l as [|r l IH]; [constructor|].
  unfold order_by in *. simpl. by apply place_sorted.
Qed.


Lemma order_by_desc_sorted l :
  StronglySorted moves_time_desc (order_by_moves_time_desc l).
Proof.
  apply (order_by_sorted (λ r1 r2, asc_leb r2 r1));
    [apply moves_time_desc_total | apply moves_time_desc_trans].
Qed.


(** The row [DELETE ... LIMIT 1] picks is one that no row beats. *)
Lemma worst_id_spec t :
  rows t ≠ [] →
  ∃ w, worst_id t = Some (id w) ∧ w ∈ rows t
       ∧ ∀ r, r ∈ rows t → moves_time_asc r w.
Proof.
  intros Hne. unfold worst_id.
  pose proof (order_by_Permutation (λ r1 r2, asc_leb r2 r1) (rows t)) as Hp.
  pose proof (order_by_desc_sorted (rows t)) as Hs.
  unfold order_by_moves_time_desc in *.
  destruct (order_by (λ r1 r2, asc_leb r2 r1) (rows t)) as [|w l'].
  - apply Permutation_nil_l in Hp. done.
  - exists w. simpl. split_and!; [done| |].
    + rewrite <- Hp. apply list_elem_of_here.
    + intros r Hr. rewrite <- Hp in Hr.
      apply StronglySorted_cons in Hs as [Hall _].
      apply elem_of_cons in Hr as [->|Hr].
      * destruct (moves_time_asc_total w w); done.
      * rewrite Forall_forall in Hall. by apply Hall.
Qed.




Lemma delete_worst_shrinks t :
  rows t ≠ [] → (length (rows (delete_worst t)) < length (rows t))%nat.
Proof.
  intros Hne. destruct (worst_id_spec t Hne) as (w & Hw & Hin & _).
  unfold delete_worst. rewrite Hw. simpl.
  apply (length_filter_lt _ _ w); [done|]. intros H. by apply H.
Qed.

Lemma foldr_max_bound (z : Z) l r :
  r ∈ l → id r ≤ foldr Z.max z (id <$> l).
Proof.
  induction l as [|r' l IH]; intros Hr; [by apply elem_of_nil in Hr|].
  rewrite fmap_cons. cbn [foldr].
  apply elem_of_cons in Hr as [->|Hr]; [apply Z.le_max_l|].
  etransitivity; [by apply IH | apply Z.le_max_r].
Qed.

Lemma next_rowid_fresh t r : r ∈ rows t → id r < next_rowid t.
Proof.
  intros Hr. unfold next_rowid.
  pose proof (foldr_max_bound (sqlite_sequence t) _ _ Hr). lia.
Qed.

End sql_facts.

(* ===================================================================== *)
(** * The score service *)
(* ===================================================================== *)

Section server_facts.
Import JS Sql Http.

Variable Date_parse : string → number.
Variable text_of_number : ereal → string.

Ltac break_match :=
  match goal with
  | |- context [match ?x with _ => _ end] => destruct x eqn:?
  end.

(** The count query of [validateScore] never gives a count. *)
Lemma recent_count_throws now ip (t : Server.db) :
  Server.recent_count now ip t = None.
Proof. reflexivity. Qed.

(** [INSERT] answers with the rowid it gave to the one row it added. *)
Lemma insert_inr {X} n tm mv d after (x : X) (tb : table X) i tb1 :
  insert text_of_number n tm mv d after x tb = inr (i, tb1) →
  ∃ dt, i = next_rowid tb
        ∧ tb1 = Table (rows tb ++ [Row i n tm mv dt x]) i.
Proof.
  unfold insert. destruct (bind_all _ _) as [f|bs]; [done|].
  destruct (bs !! 3%nat) as [[|q|str]|]; intros [= <- <-]; eauto.
Qed.

(** A 400 comes from [validateScore] only, before any statement that
    writes. *)
Lemma server_400_untouched now ip sc (t : Server.db) :
  status (Server.post_scores Date_parse text_of_number now ip sc t).1 = 400 →
  (Server.post_scores Date_parse text_of_number now ip sc t).2 = t.
Proof.
  unfold Server.post_scores, Server.store_score.
  destruct (Server.validateScore Date_parse now sc ip t); [|done..].
  repeat (break_match; simpl; try done).
Qed.

Lemma plain_400_untouched sc (t : PlainServer.db) :
  status (PlainServer.post_scores text_of_number sc t).1 = 400 →
  (PlainServer.post_scores text_of_number sc t).2 = t.
Proof.
  unfold PlainServer.post_scores.
  destruct (PlainServer.validateScore sc); [|done].
  repeat (break_match; simpl; try done).
Qed.

Lemma server_invalid now ip sc (t : Server.db) e :
  Server.validateScore Date_parse now sc ip t = Server.Invalid e →
  Server.post_scores Date_parse text_of_number now ip sc t
  = (Response 400 (Error e), t).
Proof. intros H. unfold Server.post_scores. by rewrite H. Qed.

Lemma server_throws now ip sc (t : Server.db) :
  Server.validateScore Date_parse now sc ip t = Server.Throws →
  Server.post_scores Date_parse text_of_number now ip sc t
  = (Response 500 (Error "Internal server error"), t).
Proof. intros H. unfold Server.post_scores. by rewrite H. Qed.

Lemma plain_invalid sc (t : PlainServer.db) e :
  PlainServer.validateScore sc = PlainServer.Invalid e →
  PlainServer.post_scores text_of_number sc t = (Response 400 (Error e), t).
Proof. intros H. unfold PlainServer.post_scores. by rewrite H. Qed.

Lemma name_check (n : string) :
  falsy (Str n) || (String.length (trim n) =? 0)%nat
  = negb (nonempty_string (Str n)).
Proof.
  simpl. rewrite negb_involutive. case_bool_decide as E; [|done].
  by rewrite E.
Qed.

Lemma time_check (tm : ereal) :
  ereal_ltb tm (of_Z 0) || ereal_ltb (of_Z 3600) tm
  = negb (number_between 0 3600 (Number tm)).
Proof. unfold number_between. rewrite !ereal_ltb_leb. by rewrite negb_andb. Qed.

(** [validateScore] of src/server.js, check by check: the first that
    fails gives the message; a score that passes them all reaches the
    count query, which throws. *)
Lemma server_validate_spec now ip sc (t : Server.db) :
  Server.validateScore Date_parse now sc ip t
  = if negb (nonempty_string (Http.name sc)) then Server.Invalid "Invalid name"
    else if longer_than 50 (Http.name sc) then Server.Invalid "Name too long"
    else if negb (number_between 0 3600 (Http.time sc))
    then Server.Invalid "Invalid time"
    else if negb (number_at_least 0 (Http.moves sc))
    then Server.Invalid "Invalid moves"
    else if negb (number_at_least 63 (Http.moves sc))
    then Server.Invalid "Invalid number of moves"
    else if isNaN (new_Date Date_parse (Http.date sc))
            || gtb (new_Date Date_parse (Http.date sc)) (Num (of_Z now))
    then Server.Invalid "Invalid date"
    else Server.Throws.
Proof.
  unfold Server.validateScore.
  destruct (Http.name sc) as [| | | |n| |]; try done.
  rewrite name_check. destruct (nonempty_string (Str n)); [|done].
  cbn [negb longer_than]. destruct (50 <? String.length n)%nat; [done|].
  destruct (Http.time sc) as [| | |tm| | |]; try done.
  rewrite time_check. destruct (number_between 0 3600 (Number tm)); [|done].
  cbn [negb]. destruct (Http.moves sc) as [| | |mv| | |]; try done.
  unfold number_at_least. rewrite <- !ereal_ltb_leb.
  change (of_Z Server.minMoves) with (of_Z 63).
  destruct (ereal_ltb mv (of_Z 0)); [done|].
  destruct (ereal_ltb mv (of_Z 63)); [done|].
  cbv zeta. destruct (_ || _); [done|]. by rewrite recent_count_throws.
Qed.

(** So src/server.js never finds a score valid. *)
Lemma server_never_valid now ip sc (t : Server.db) :
  Server.validateScore Date_parse now sc ip t ≠ Server.Valid.
Proof. rewrite server_validate_spec. by repeat case_match. Qed.

(** The two ways a POST to src/server.js ends; the table stays as it
    was in both. *)
Lemma server_post_cases now ip sc (t : Server.db) :
  (∃ e, Server.validateScore Date_parse now sc ip t = Server.Invalid e
        ∧ Server.post_scores Date_parse text_of_number now ip sc t
          = (Response 400 (Error e), t))
  ∨ (Server.validateScore Date_parse now sc ip t = Server.Throws
     ∧ Server.post_scores Date_parse text_of_number now ip sc t
       = (Response 500 (Error "Internal server error"), t)).
Proof.
  destruct (Server.validateScore Date_parse now sc ip t) as [|e|] eqn:Hv.
  - by apply server_never_valid in Hv.
  - left. exists e. split; [done|]. by apply server_invalid.
  - right. split; [done|]. by apply server_throws.
Qed.

Lemma server_post_untouched now ip sc (t : Server.db) :
  (Server.post_scores Date_parse text_of_number now ip sc t).2 = t.
Proof.
  by destruct (server_post_cases now ip sc t) as [(e & _ & ->)|[_ ->]].
Qed.

Lemma server_handle_untouched r (t : Server.db) :
  (Server.handle Date_parse text_of_number r t).2 = t.
Proof. destruct r as [|now ip sc]; [done|]. apply server_post_untouched. Qed.

Lemma server_serve_untouched rs (t : Server.db) :
  (Server.serve Date_parse text_of_number rs t).2 = t.
Proof.
  induction rs as [|r rs IH]; [done|]. simpl.
  pose proof (server_handle_untouched r t) as Hh.
  destruct (Server.handle Date_parse text_of_number r t) as [resp t1].
  simpl in Hh. subst t1.
  by destruct (Server.serve Date_parse text_of_number rs t) as [resps t2].
Qed.


(** A score that passes the [validateScore] of the second back end has
    a string for its name and numbers for its time and moves: the last
    case of its [post_scores] is never taken. *)
Lemma plain_valid_types sc :
  PlainServer.validateScore sc = PlainServer.Valid →
  ∃ n tm mv, Http.name sc = Str n ∧ Http.time sc = Number tm
             ∧ Http.moves sc = Number mv.
Proof.
  unfold PlainServer.validateScore.
  destruct (Http.name sc) as [| | | |n| |]; try done.
  destruct (_ || _); [done|].
  destruct (Http.time sc) as [| | |tm| | |]; try done.
  destruct (ereal_ltb tm _); [done|].
  destruct (Http.moves sc) as [| | |mv| | |]; try done.
  intros _. by eexists _, _, _.
Qed.

(** C10. In both back ends, a POST that is answered with status 400
    leaves the table exactly as it was: nothing inserted, nothing
    evicted. *)
Theorem rejected_post_leaves_store now ip sc (t : Server.db) (t' : PlainServer.db) :
  (status (Server.post_scores Date_parse text_of_number now ip sc t).1 = 400 →
   (Server.post_scores Date_parse text_of_number now ip sc t).2 = t) ∧
  (status (PlainServer.post_scores text_of_number sc t').1 = 400 →
   (PlainServer.post_scores text_of_number sc t').2 = t').
Proof. split; [apply server_400_untouched | apply plain_400_untouched]. Qed.

(** C6. In both back ends, a POST whose [moves] is a number below
    63 = 2^6 - 1 is answered with status 400 and the table is unchanged,
    whatever the other fields, the clock, the sender and the table. *)
Theorem too_few_moves_rejected now ip sc (t : Server.db) (t' : PlainServer.db) m :
  Http.moves sc = Number m → ereal_ltb m (of_Z 63) = true →
  (status (Server.post_scores Date_parse text_of_number now ip sc t).1 = 400 ∧
   (Server.post_scores Date_parse text_of_number now ip sc t).2 = t) ∧
  (status (PlainServer.post_scores text_of_number sc t').1 = 400 ∧
   (PlainServer.post_scores text_of_number sc t').2 = t').
Proof.
  intros Hm Hlt.
  assert (∃ e, Server.validateScore Date_parse now sc ip t = Server.Invalid e) as [e He].
  { unfold Server.validateScore. rewrite Hm.
    change (of_Z Server.minMoves) with (of_Z 63). rewrite Hlt.
    repeat (break_match; eauto). }
  assert (∃ e, PlainServer.validateScore sc = PlainServer.Invalid e) as [e' He'].
  { unfold PlainServer.validateScore. rewrite Hm.
    change (of_Z PlainServer.minMoves) with (of_Z 63). rewrite Hlt.
    repeat (break_match; eauto). }
  rewrite (server_invalid _ _ _ _ _ He), (plain_invalid _ _ _ He'). done.
Qed.





End server_facts.

Section server_examples.
Import JS Sql Http Samples.



Lemma too_few_moves_rejected_witness :
  (status (post now0 ip0 few_moves empty).1 = 400 ∧
   (post now0 ip0 few_moves empty).2 = empty) ∧
  (status (PlainServer.post_scores text_of_integer few_moves empty).1 = 400 ∧
   (PlainServer.post_scores text_of_integer few_moves empty).2 = empty).
Proof.
  apply (too_few_moves_rejected Date_parse_iso text_of_integer now0 ip0
           few_moves empty empty (Fin (125 # 2))); vm_compute; reflexivity.
Defined.

Lemma rejected_post_leaves_store_witness :
  (post now0 ip0 slow (full_table ip0)).2 = full_table ip0
  ∧ (PlainServer.post_scores text_of_integer few_moves (full_table ())).2
    = full_table ().
Proof.
  destruct (rejected_post_leaves_store Date_parse_iso text_of_integer now0 ip0
              slow (full_table ip0) (full_table ())) as [HA _].
  destruct (rejected_post_leaves_store Date_parse_iso text_of_integer now0 ip0
              few_moves (full_table ip0) (full_table ())) as [_ HB].
  split; [apply HA | apply HB]; vm_compute; reflexivity.
Defined.

(** The order of the leaderboard on the scores of the specification:
    for equal moves the faster one is first, and fewer moves are first
    whatever the time. *)
Example leaderboard_order :
  let r i t m := Row i "p" (of_Z t) (of_Z m) "2026-11-02T07:59:00.000Z" ip0 in
  top10 (Table [r 1 50 10; r 2 30 10; r 3 999 5] 3)
  = [r 3 999 5; r 2 30 10; r 1 50 10].
Proof. vm_compute. reflexivity. Qed.

(** Rows with the same moves and time are listed in the order of their
    ids, and of several rows that are equally the worst the delete
    takes the one with the lowest id. *)
Example ties_in_rowid_order :
  let r i m := Row i "p" (of_Z 100) (of_Z m) "2026-11-02T07:59:00.000Z" ip0 in
  top10 (Table [r 1 90; r 2 70; r 3 90; r 4 70; r 5 90] 5)
  = [r 2 70; r 4 70; r 1 90; r 3 90; r 5 90]
  ∧ delete_worst (Table [r 1 90; r 2 70; r 3 90; r 4 70; r 5 90] 5)
    = Table [r 2 70; r 3 90; r 4 70; r 5 90] 5.
Proof. vm_compute. done. Qed.


(** The example of the specification, on the [try] block: the worst of
    the hundred rows is (moves 200, time 500); the 101st score takes its
    place. *)
Example eviction_of_200_500 :
  last (hundred_rows ip0)
  = Some (Row 100 "player" (of_Z 500) (of_Z 200) "2024-01-01T00:00:00.000Z" ip0)
  ∧ Server.store_score text_of_integer ip0 "ana" (of_Z 120) (of_Z 70)
      (Str "2026-11-02T07:59:00.000Z") (full_table ip0)
    = (Response 200 (Id 101),
       Table (take 99 (hundred_rows ip0)
              ++ [Row 101 "ana" (of_Z 120) (of_Z 70) "2026-11-02T07:59:00.000Z" ip0])
             101).
Proof. vm_compute. done. Qed.


(** C9 is not what src/server.js does.  Six POSTs of a score that
    passes every check on its fields and its date, from one address
    within five minutes, are each answered with 500 'Internal server
    error', the sixth like the five before it, and nothing is stored:
    the count query of the limit throws when it is prepared, before any
    row is counted. *)
Theorem sixth_post_answered_500 :
  (serve_all (six_posts good) empty).1
  = replicate 6 (Response 500 (Error "Internal server error"))
  ∧ (serve_all (six_posts good) empty).2 = empty.
Proof. vm_compute. done. Qed.

(** The same on a table that holds five rows of the sender already, all
    of the last minutes: the answer is 500, not 400. *)
Example five_recent_rows_then_500 :
  let r i := Row i "ana" (of_Z 120) (of_Z 70) "2026-11-02T07:59:00.000Z" ip0 in
  post now0 ip0 good (Table (r <$> seqZ 1 5) 5)
  = (Response 500 (Error "Internal server error"), Table (r <$> seqZ 1 5) 5).
Proof. vm_compute. done. Qed.

End server_examples.

(* ===================================================================== *)
(** * The puzzle engine keeps its towers in order *)
(* ===================================================================== *)

Section hanoi_facts.
Import Hanoi.

#[local] Instance carries_trans : Transitive carries.
Proof. intros a b c Hab Hbc. unfold carries in *. eapply ltb_trans; eauto. Qed.

Lemma descending_full_stack : descending full_stack.
Proof.
  apply (bool_decide_unpack _). vm_compute. exact I.
Qed.

Lemma initializeGame_empty (g : game) :
  towers g = [[]; []; []] →
  initializeGame g = Some (set_towers [full_stack; []; []] g).
Proof. intros E. unfold initializeGame. rewrite E. vm_compute. reflexivity. Qed.

Lemma constructor_eq : constructor = Some (Game [full_stack; []; []] None 0 false).
Proof. vm_compute. reflexivity. Qed.

Lemma resetGame_eq (g : game) :
  length (towers g) = 3%nat →
  resetGame g = Some (Game [full_stack; []; []] None 0 false).
Proof.
  intros L. unfold resetGame.
  destruct (towers g) as [|a [|b [|c [|? ?]]]]; simpl in L; try discriminate.
  vm_compute. reflexivity.
Qed.

Lemma inv_fresh : inv (Game [full_stack; []; []] None 0 false).
Proof.
  split; simpl.
  - reflexivity.
  - apply Forall_cons; split; [apply descending_full_stack |].
    apply Forall_cons; split; [apply SSorted_nil |].
    apply Forall_cons; split; [apply SSorted_nil | apply Forall_nil; exact I].
  - change (full_stack ++ [] ++ [] ≡ₚ full_stack). by rewrite !app_nil_r.
  - discriminate.
Qed.

(** Taking the top disk off a tower and putting it on another one. *)
Lemma descending_pop (t : list disk) (d : disk) :
  descending (t ++ [d]) → descending t.
Proof. apply StronglySorted_app_1_l. Qed.

Lemma descending_push (t : list disk) (d : disk) :
  descending t → (∀ top, last t = Some top → carries top d) →
  descending (t ++ [d]).
Proof.
  intros Ht Htop. apply StronglySorted_app. split_and!.
  - intros x y Hx Hy. apply list_elem_of_singleton in Hy as ->.
    destruct (last t) as [top|] eqn:E.
    + apply last_Some in E as [t' ->].
      apply elem_of_app in Hx as [Hx|Hx].
      * transitivity top; [|by apply Htop].
        eapply StronglySorted_app_1_elem_of; [exact Ht | done |].
          apply list_elem_of_singleton; reflexivity.
      * apply list_elem_of_singleton in Hx as ->. by apply Htop.
    + apply last_None in E as ->. by apply elem_of_nil in Hx.
  - done.
  - repeat constructor.
Qed.

Lemma moveDisk_eq (g : game) (fromTower toTower : nat) tf d tt :
  fromTower ≠ toTower →
  towers g !! fromTower = Some (tf ++ [d]) →
  towers g !! toTower = Some tt →
  moveDisk fromTower toTower g
  = Some (set_towers (<[toTower := tt ++ [d]]> (<[fromTower := tf]> (towers g))) g).
Proof.
  intros Hne Hf Ht. unfold moveDisk, push. rewrite Hf. simpl.
  rewrite last_snoc. simpl. rewrite removelast_last.
  rewrite list_lookup_insert_ne by done. rewrite Ht. reflexivity.
Qed.

Lemma concat_move (ts : list (list disk)) (i j : nat) tf d tt :
  length ts = 3%nat → i ≠ j →
  ts !! i = Some (tf ++ [d]) → ts !! j = Some tt →
  concat (<[j := tt ++ [d]]> (<[i := tf]> ts)) ≡ₚ concat ts.
Proof.
  intros L Hne Hi Hj.
  destruct ts as [|a [|b [|c [|? ?]]]]; simpl in L; try discriminate.
  destruct i as [|[|[|i]]], j as [|[|[|j]]]; simpl in *;
    try congruence; simplify_eq; rewrite ?app_nil_r; solve_Permutation.
Qed.

Lemma sorted_move (ts : list (list disk)) (i j : nat) tf d tt :
  Forall descending ts →
  ts !! i = Some (tf ++ [d]) → ts !! j = Some tt →
  (∀ top, last tt = Some top → carries top d) →
  Forall descending (<[j := tt ++ [d]]> (<[i := tf]> ts)).
Proof.
  intros Hs Hi Hj Htop.
  apply Forall_insert; [apply Forall_insert; [done|] |].
  - eapply descending_pop, (Forall_lookup_1 _ _ _ _ Hs Hi).
  - apply descending_push; [|done]. apply (Forall_lookup_1 _ _ _ _ Hs Hj).
Qed.

(** [isValidMove] answers whenever both towers exist. *)
Lemma isValidMove_top (g : game) (i j : nat) tf d tt :
  i ≠ j → towers g !! i = Some (tf ++ [d]) → towers g !! j = Some tt →
  isValidMove i j g
  = Some (match last tt with
          | None => true
          | Some top => JS.ltb (size d) (size top)
          end).
Proof.
  intros Hne Hi Hj. unfold isValidMove.
  rewrite decide_False by done. rewrite Hi. simpl.
  rewrite decide_False by (rewrite length_app; simpl; lia).
  rewrite Hj. simpl. destruct tt as [|x tt'] using rev_ind.
  - reflexivity.
  - rewrite decide_False by (rewrite length_app; simpl; lia).
    rewrite !last_snoc. reflexivity.
Qed.

Lemma checkWin_total (g : game) :
  length (towers g) = 3%nat → is_Some (checkWin g).
Proof.
  intros L. unfold checkWin.
  destruct (towers g) as [|a [|b [|c [|? ?]]]]; simpl in L; try discriminate.
  simpl. eauto.
Qed.

(** The second click of a pair, on a state whose selected tower has a
    top disk: what it returns, in the two cases of [isValidMove]. *)
Lemma click_valid (g : game) (sel j : nat) tf d tt :
  length (towers g) = 3%nat →
  isPlaying g = true → selectedTower g = Some sel →
  towers g !! sel = Some (tf ++ [d]) → towers g !! j = Some tt →
  isValidMove sel j g = Some true →
  ∃ g', handleTowerClick j g = Some g'
        ∧ towers g' = <[j := tt ++ [d]]> (<[sel := tf]> (towers g))
        ∧ moves g' = S (moves g) ∧ selectedTower g' = None.
Proof.
  intros L Hp Hs Hi Hj Hv.
  assert (sel ≠ j) as Hne.
  { intros ->. unfold isValidMove in Hv. by rewrite decide_True in Hv. }
  unfold handleTowerClick. rewrite Hp, Hs. simpl. rewrite Hi. simpl.
  rewrite last_snoc. simpl. rewrite Hv. simpl.
  rewrite (moveDisk_eq g sel j tf d tt) by done. simpl.
  match goal with |- context [checkWin ?g2] =>
    destruct (checkWin_total g2) as [won Hw] end.
  { simpl. by rewrite !length_insert. }
  rewrite Hw. simpl. eexists. split; [reflexivity|].
  destruct won; simpl; done.
Qed.

Lemma click_invalid (g : game) (sel j : nat) tf d :
  isPlaying g = true → selectedTower g = Some sel →
  towers g !! sel = Some (tf ++ [d]) →
  isValidMove sel j g = Some false →
  handleTowerClick j g = Some (set_selectedTower None g).
Proof.
  intros Hp Hs Hi Hv. unfold handleTowerClick. rewrite Hp, Hs. simpl.
  rewrite Hi. simpl. rewrite last_snoc. simpl. rewrite Hv. reflexivity.
Qed.

Lemma isValidMove_same (g : game) (i : nat) : isValidMove i i g = Some false.
Proof. unfold isValidMove. by rewrite decide_True. Qed.

Lemma isValidMove_true_inv (g : game) (i j : nat) :
  isValidMove i j g = Some true →
  i ≠ j ∧ ∃ tf d tt, towers g !! i = Some (tf ++ [d]) ∧ towers g !! j = Some tt
                     ∧ ∀ top, last tt = Some top → carries top d.
Proof.
  unfold isValidMove. destruct (decide (i = j)) as [|Hne]; [done|].
  destruct (towers g !! i) as [tf|] eqn:Hi; [simpl|done].
  destruct (decide (length tf = 0%nat)); [done|].
  destruct (towers g !! j) as [tt|] eqn:Hj; [simpl|done].
  destruct (last tf) as [d|] eqn:Hd.
  2:{ apply last_None in Hd as ->. done. }
  apply last_Some in Hd as [tf' ->].
  intros Hv. split; [done|]. exists tf', d, tt. split_and!; [done..|].
  intros top Htop. rewrite Htop in Hv.
  destruct (decide (length tt = 0%nat)) as [E|_].
  - apply length_zero_iff_nil in E as ->. done.
  - simpl in Hv. unfold carries. congruence.
Qed.

(** Every handler keeps the invariant, whatever the event. *)
Lemma handleTowerClick_inv (g g' : game) (i : nat) :
  inv g → handleTowerClick i g = Some g' → inv g'.
Proof.
  intros Hinv H. pose proof Hinv as [L Hs Hd Hsel].
  destruct (isPlaying g) eqn:Hp.
  2:{ unfold handleTowerClick in H. rewrite Hp in H. simpl in H. by simplify_eq. }
  destruct (selectedTower g) as [sel|] eqn:Hse.
  - destruct (Hsel sel eq_refl) as (t & Ht & Hne).
    destruct (last t) as [d|] eqn:Hl; [|apply last_None in Hl; contradiction].
    apply last_Some in Hl as [tf ->].
    destruct (isValidMove sel i g) as [[|]|] eqn:Hv.
    + destruct (isValidMove_true_inv _ _ _ Hv)
        as (Hij & tf' & d' & tt & Hi & Hj & Htop).
      rewrite Ht in Hi. apply (inj Some) in Hi.
      apply app_inj_tail in Hi as [<- <-].
      destruct (click_valid g sel i tf d tt L Hp Hse Ht Hj Hv)
        as (g'' & Hc & Htw & _ & Hnone).
      rewrite Hc in H. simplify_eq. split.
      * by rewrite Htw, !length_insert.
      * rewrite Htw. by apply sorted_move.
      * rewrite Htw. by rewrite concat_move.
      * rewrite Hnone. done.
    + rewrite (click_invalid g sel i tf d Hp Hse Ht Hv) in H. simplify_eq.
      split; simpl; done.
    + unfold handleTowerClick in H. rewrite Hp, Hse in H. simpl in H.
      rewrite Ht in H. simpl in H. rewrite last_snoc in H. simpl in H.
      rewrite Hv in H. done.
  - unfold handleTowerClick in H. rewrite Hp, Hse in H. simpl in H.
    destruct (towers g !! i) as [t|] eqn:Ht; simpl in H; [|done].
    destruct (decide (0 < length t)%nat) as [Hlen|]; simplify_eq; [|done].
    split; simpl; try done.
    intros s [= <-]. exists t. split; [done|]. intros ->. simpl in Hlen. lia.
Qed.

Lemma handle_inv (e : event) (g g' : game) :
  inv g → handle e g = Some g' → inv g'.
Proof.
  intros Hi H. destruct e; simpl in H.
  - simplify_eq. unfold startGame. destruct Hi. destruct (isPlaying g); done.
  - rewrite resetGame_eq in H by apply Hi. simplify_eq. apply inv_fresh.
  - by eapply handleTowerClick_inv.
Qed.

Lemma reachable_inv (g : game) : reachable g → inv g.
Proof.
  induction 1 as [g Hc | g e g' _ IH _ Hh].
  - rewrite constructor_eq in Hc. simplify_eq. apply inv_fresh.
  - by eapply handle_inv.
Qed.

Lemma run_inv (es : list event) (g : game) : inv g → inv (run es g).
Proof.
  revert g. induction es as [|e es IH]; intros g Hi; simpl; [done|].
  apply IH. destruct (handle e g) as [g'|] eqn:Hh; simpl; [|done].
  by eapply handle_inv.
Qed.

(** No handler throws on an event the page can deliver. *)
Lemma handle_total (e : event) (g : game) :
  inv g → wired e → is_Some (handle e g).
Proof.
  intros Hi Hw. destruct e as [| |i]; simpl.
  - eauto.
  - rewrite resetGame_eq by apply Hi. eauto.
  - simpl in Hw. destruct (lookup_lt_is_Some_2 (towers g) i) as [tt Hj].
    { destruct Hi as [L _ _ _]. lia. }
    destruct (isPlaying g) eqn:Hp.
    2:{ unfold handleTowerClick. rewrite Hp. simpl. eauto. }
    destruct (selectedTower g) as [sel|] eqn:Hse.
    + destruct (inv_selected g Hi sel Hse) as (t & Ht & Hne).
      destruct (last t) as [d|] eqn:Hd; [|apply last_None in Hd; contradiction].
      apply last_Some in Hd as [tf ->].
      destruct (decide (sel = i)) as [->|Hne'].
      * rewrite (click_invalid g i i tf d Hp Hse Ht (isValidMove_same g i)). eauto.
      * pose proof (isValidMove_top g sel i tf d tt Hne' Ht Hj) as Hv.
        destruct (match last tt with None => true
                  | Some top => JS.ltb (size d) (size top) end) eqn:Hb.
        -- destruct (click_valid g sel i tf d tt (inv_three g Hi) Hp Hse Ht Hj Hv)
             as (g'' & Hc & _).
           rewrite Hc. eauto.
        -- rewrite (click_invalid g sel i tf d Hp Hse Ht Hv). eauto.
    + unfold handleTowerClick. rewrite Hp, Hse. simpl. rewrite Hj. simpl.
      destruct (decide (0 < length tt)%nat); eauto.
Qed.

Lemma reachable_run (es : list event) (g : game) :
  reachable g → Forall wired es → reachable (run es g).
Proof.
  revert g. induction es as [|e es IH]; intros g Hr Hw; simpl; [done|].
  apply Forall_cons in Hw as [He Hes]. apply IH; [|done].
  destruct (handle e g) as [g'|] eqn:Hh; simpl; [|done].
  by eapply reachable_event.
Qed.

Lemma length_full_stack : length full_stack = 6%nat.
Proof. unfold full_stack. by rewrite length_fmap. Qed.

Lemma mid_game_reachable : reachable mid_game.
Proof.
  apply reachable_run; [apply reachable_new, constructor_eq|].
  repeat first [apply Forall_nil_2
               | apply Forall_cons_2; [simpl; first [exact I | lia]|]].
Qed.

Example mid_game_eq :
  mid_game = Game [createDisk <$> [6; 5; 4; 3; 2]%nat; []; [createDisk 1]]
                  (Some 0%nat) 1 true.
Proof. vm_compute. reflexivity. Qed.

(** An illegal attempt (the 70px disk onto the 45px one) changes
    nothing but the selection. *)
Example illegal_attempt :
  run [TowerClick 2] mid_game = set_selectedTower None mid_game.
Proof. vm_compute. reflexivity. Qed.

(** C1. After any sequence of events delivered to a new game (the two
    buttons and clicks on towers, whether the move they ask for is legal
    or not, and even clicks with an index no tower has), there are three
    towers, each tower is strictly decreasing in disk size from bottom
    to top, and the towers together hold exactly the six disks of the
    full stack, each once. *)
Theorem towers_stay_ordered_and_complete (es : list event) :
  ∃ g0, constructor = Some g0 ∧
    length (towers (run es g0)) = 3%nat ∧
    Forall descending (towers (run es g0)) ∧
    concat (towers (run es g0)) ≡ₚ full_stack.
Proof.
  eexists. split; [apply constructor_eq|].
  destruct (run_inv es _ inv_fresh) as [L Hs Hd _]. done.
Qed.

(** C2. In a reachable state, [isValidMove] holds exactly for the legal
    moves (different pegs, source not empty, target empty or with a
    larger top disk).  When a source peg is selected during play, a click
    on a target peg never throws and clears the selection; if the move is
    legal the top disk of the source leaves it and lands on top of the
    target and the counter grows by one; if not, towers and counter are
    unchanged. *)
Theorem move_attempt (g : game) (fromPeg toPeg : nat) :
  reachable g → (fromPeg < 3)%nat → (toPeg < 3)%nat →
  (isValidMove fromPeg toPeg g = Some true ↔ legal fromPeg toPeg g) ∧
  (isPlaying g = true → selectedTower g = Some fromPeg →
   ∃ g', handleTowerClick toPeg g = Some g' ∧ selectedTower g' = None ∧
     (legal fromPeg toPeg g →
        ∃ tf d tt, towers g !! fromPeg = Some (tf ++ [d]) ∧
                   towers g !! toPeg = Some tt ∧
                   towers g' = <[toPeg := tt ++ [d]]> (<[fromPeg := tf]> (towers g)) ∧
                   moves g' = S (moves g)) ∧
     (¬ legal fromPeg toPeg g → towers g' = towers g ∧ moves g' = moves g)).
Proof.
  intros Hr Hf Ht. pose proof (reachable_inv g Hr) as Hi.
  assert (isValidMove fromPeg toPeg g = Some true ↔ legal fromPeg toPeg g) as Hiff.
  { split.
    - intros Hv. destruct (isValidMove_true_inv _ _ _ Hv)
        as (Hne & tf & d & tt & Hfl & Htl & Htop).
      split; [done|]. exists (tf ++ [d]), tt. split_and!; [done..| |].
      + intros E. by apply app_nil in E as [_ ?].
      + destruct (last tt) as [top|] eqn:Hl.
        * right. exists d, top. rewrite last_snoc. split_and!; [done..|].
          by apply Htop.
        * left. by apply last_None.
    - intros (Hne & tf & tt & Hfl & Htl & Hnil & Hcase).
      destruct (last tf) as [d|] eqn:Hd; [|apply last_None in Hd; contradiction].
      apply last_Some in Hd as [tf' ->].
      rewrite (isValidMove_top g fromPeg toPeg tf' d tt Hne Hfl Htl).
      destruct Hcase as [->|(df & dt & Hdf & Hdt & Hlt)]; [done|].
      simplify_eq. by rewrite Hdt, Hlt. }
  split; [exact Hiff|]. intros Hp Hse.
  destruct (inv_selected g Hi fromPeg Hse) as (t & Hfl & Hne).
  destruct (last t) as [d|] eqn:Hd; [|apply last_None in Hd; contradiction].
  apply last_Some in Hd as [tf ->].
  destruct (lookup_lt_is_Some_2 (towers g) toPeg) as [tt Htl].
  { rewrite (inv_three g Hi). lia. }
  destruct (isValidMove fromPeg toPeg g) as [[|]|] eqn:Hv.
  - destruct (click_valid g fromPeg toPeg tf d tt (inv_three g Hi) Hp Hse Hfl Htl Hv)
      as (g' & Hc & Htw & Hm & Hnone).
    exists g'. split_and!; [done..| |].
    + intros _. exists tf, d, tt. done.
    + intros Hn. destruct Hn. by apply Hiff.
  - exists (set_selectedTower None g).
    split_and!; [by eapply click_invalid|done| |done].
    intros Hl. apply Hiff in Hl. done.
  - destruct (decide (fromPeg = toPeg)) as [->|Hne'].
    + by rewrite isValidMove_same in Hv.
    + by rewrite (isValidMove_top g fromPeg toPeg tf d tt Hne' Hfl Htl) in Hv.
Qed.

Lemma move_attempt_witness :
  (isValidMove 0 1 mid_game = Some true ↔ legal 0 1 mid_game) ∧
  ∃ g', handleTowerClick 1 mid_game = Some g' ∧ selectedTower g' = None ∧
    (legal 0 1 mid_game →
       ∃ tf d tt, towers mid_game !! 0%nat = Some (tf ++ [d]) ∧
                  towers mid_game !! 1%nat = Some tt ∧
                  towers g' = <[1%nat := tt ++ [d]]> (<[0%nat := tf]> (towers mid_game)) ∧
                  moves g' = S (moves mid_game)) ∧
    (¬ legal 0 1 mid_game → towers g' = towers mid_game ∧ moves g' = moves mid_game).
Proof.
  destruct (move_attempt mid_game 0 1) as [Hiff Hclick];
    [apply mid_game_reachable | lia | lia |].
  split; [exact Hiff | apply Hclick; vm_compute; reflexivity].
Defined.

(** C3. In a reachable state [checkWin] returns a boolean, and it is
    true exactly when the last tower (index 2) holds all six disks; the
    towers are then empty, empty, and the full stack in order. *)
Theorem checkWin_iff_goal_full (g : game) :
  reachable g →
  ∃ b, checkWin g = Some b ∧
    (b = true ↔ ∃ t, towers g !! 2%nat = Some t ∧ t ≡ₚ full_stack) ∧
    (b = true → towers g = [[]; []; full_stack]).
Proof.
  intros Hr. destruct (reachable_inv g Hr) as [L Hs Hd _].
  unfold checkWin.
  destruct (towers g) as [|a [|b [|c [|? ?]]]]; simpl in L; try discriminate.
  simpl. eexists. split; [reflexivity|].
  simpl in Hd. rewrite app_nil_r in Hd.
  pose proof (Permutation_length Hd) as Hlen.
  rewrite !length_app, length_full_stack in Hlen.
  assert (bool_decide (length c = numDisks) = true → a = [] ∧ b = []) as Hab.
  { intros E. apply bool_decide_eq_true in E. unfold numDisks in E.
    split; apply length_zero_iff_nil; lia. }
  split.
  - split.
    + intros E. destruct (Hab E) as [-> ->]. exists c. done.
    + intros (t & [= <-] & Hp). apply bool_decide_eq_true.
      by rewrite Hp, length_full_stack.
  - intros E. destruct (Hab E) as [-> ->]. simpl in Hd. do 2 f_equal.
    f_equal. apply (StronglySorted_unique_strong carries);
      [| by inversion Hs as [|?? _ [|?? _ [|?? Hc _]]]
       | apply descending_full_stack | done].
    intros x y _ _ Hxy Hyx. unfold carries in *.
    pose proof (ltb_trans _ _ _ Hxy Hyx) as Hxx.
    by rewrite ltb_irrefl in Hxx.
Qed.

Lemma checkWin_iff_goal_full_witness :
  ∃ b, checkWin mid_game = Some b ∧
    (b = true ↔ ∃ t, towers mid_game !! 2%nat = Some t ∧ t ≡ₚ full_stack) ∧
    (b = true → towers mid_game = [[]; []; full_stack]).
Proof. apply (checkWin_iff_goal_full mid_game), mid_game_reachable. Defined.

(** C4. [resetGame], from any state of the three towers, returns the
    state in which the first tower holds the six disks, widest at the
    bottom and strictly decreasing upwards, the other two towers are
    empty, the move counter is zero, the game is not in play and no tower
    is selected. *)
Theorem reset_restores_start (g : game) :
  length (towers g) = 3%nat →
  ∃ g', resetGame g = Some g' ∧
    towers g' = [full_stack; []; []] ∧
    length full_stack = numDisks ∧ descending full_stack ∧
    size <$> full_stack
      = (λ w, JS.Num (JS.of_Z w)) <$> [170; 145; 120; 95; 70; 45] ∧
    moves g' = 0%nat ∧ isPlaying g' = false ∧ selectedTower g' = None.
Proof.
  intros L. eexists. split; [by apply resetGame_eq|]. simpl.
  split_and!; [reflexivity | apply length_full_stack | apply descending_full_stack
              | vm_compute; reflexivity | reflexivity..].
Qed.

Lemma reset_restores_start_witness :
  ∃ g', resetGame mid_game = Some g' ∧
    towers g' = [full_stack; []; []] ∧
    length full_stack = numDisks ∧ descending full_stack ∧
    size <$> full_stack
      = (λ w, JS.Num (JS.of_Z w)) <$> [170; 145; 120; 95; 70; 45] ∧
    moves g' = 0%nat ∧ isPlaying g' = false ∧ selectedTower g' = None.
Proof.
  apply (reset_restores_start mid_game). vm_compute. reflexivity.
Defined.

End hanoi_facts.

(* ===================================================================== *)
(** * The game cannot be won in fewer than 63 moves *)
(* ===================================================================== *)

Section play_facts.
Import Hanoi Solve.

Lemma steps_ok_true : steps_ok = true.
Proof. vm_compute. reflexivity. Qed.

Lemma wins_ok_true : wins_ok = true.
Proof. vm_compute. reflexivity. Qed.

Lemma fresh_position : [full_stack; []; []] ∈ positions.
Proof. apply (bool_decide_unpack _). vm_compute. exact I. Qed.

Lemma fresh_distance : distance [full_stack; []; []] = 63%nat.
Proof. vm_compute. reflexivity. Qed.

Lemma pair_listed (i j : nat) : (i < 3)%nat → (j < 3)%nat → (i, j) ∈ pairs.
Proof.
  intros Hi Hj. apply list_elem_of_In.
  destruct i as [|[|[|i]]]; [| | |lia];
    (destruct j as [|[|[|j]]]; [| | |lia]); simpl; tauto.
Qed.

(** [moveDisk] and [isValidMove] look at the towers only. *)
Lemma moveDisk_towers (i j : nat) (g : game) :
  towers <$> moveDisk i j g = towers <$> moveDisk i j (at_play (towers g)).
Proof.
  unfold moveDisk. simpl. destruct (towers g !! i) as [tf|]; [simpl|done].
  destruct (last tf) as [d|]; [simpl|done].
  destruct (push j d _); done.
Qed.

Lemma step_checked (ts : list (list disk)) (i j : nat) (g1 : game) :
  ts ∈ positions → (i < 3)%nat → (j < 3)%nat →
  isValidMove i j (at_play ts) = Some true →
  moveDisk i j (at_play ts) = Some g1 →
  towers g1 ∈ positions ∧ (distance ts ≤ distance (towers g1) + 1)%nat.
Proof.
  intros Hts Hi Hj Hv Hm. pose proof steps_ok_true as H. unfold steps_ok in H.
  rewrite forallb_forall in H. specialize (H ts).
  rewrite <- list_elem_of_In in H. specialize (H Hts).
  rewrite forallb_forall in H. specialize (H (i, j)).
  rewrite <- list_elem_of_In in H. specialize (H (pair_listed i j Hi Hj)).
  unfold step_ok in H. simpl in H. rewrite Hv, Hm in H.
  apply andb_true_iff in H as [H1 H2].
  split; [by apply bool_decide_eq_true in H1 | by apply bool_decide_eq_true in H2].
Qed.

(** A click either leaves towers and counter alone or makes one move
    that [isValidMove] allowed. *)
Lemma click_outcome (g g' : game) (j : nat) :
  inv g → handleTowerClick j g = Some g' →
  (towers g' = towers g ∧ moves g' = moves g)
  ∨ ∃ sel g1, (sel < 3)%nat ∧ (j < 3)%nat
              ∧ isPlaying g = true
              ∧ isValidMove sel j g = Some true
              ∧ moveDisk sel j g = Some g1
              ∧ towers g' = towers g1 ∧ moves g' = S (moves g).
Proof.
  intros Hinv H. pose proof Hinv as [L Hs Hd Hsel].
  destruct (isPlaying g) eqn:Hp.
  2:{ unfold handleTowerClick in H. rewrite Hp in H. simpl in H.
      simplify_eq. by left. }
  destruct (selectedTower g) as [sel|] eqn:Hse.
  - destruct (Hsel sel eq_refl) as (t & Ht & Hne).
    destruct (last t) as [d|] eqn:Hl; [|apply last_None in Hl; contradiction].
    apply last_Some in Hl as [tf ->].
    destruct (isValidMove sel j g) as [[|]|] eqn:Hv.
    + destruct (isValidMove_true_inv _ _ _ Hv)
        as (Hij & tf' & d' & tt & Hi & Hj & Htop).
      rewrite Ht in Hi. apply (inj Some) in Hi.
      apply app_inj_tail in Hi as [<- <-].
      destruct (click_valid g sel j tf d tt L Hp Hse Ht Hj Hv)
        as (g'' & Hc & Htw & Hm & _).
      rewrite Hc in H. simplify_eq. right.
      exists sel, (set_towers (<[j := tt ++ [d]]> (<[sel := tf]> (towers g))) g).
      split_and!; try done.
      * apply lookup_lt_Some in Ht. lia.
      * apply lookup_lt_Some in Hj. lia.
      * by apply moveDisk_eq.
    + rewrite (click_invalid g sel j tf d Hp Hse Ht Hv) in H. simplify_eq.
      by left.
    + unfold handleTowerClick in H. rewrite Hp, Hse in H. simpl in H.
      rewrite Ht in H. simpl in H. rewrite last_snoc in H. simpl in H.
      rewrite Hv in H. done.
  - unfold handleTowerClick in H. rewrite Hp, Hse in H. simpl in H.
    destruct (towers g !! j) as [t|]; simpl in H; [|done].
    destruct (decide (0 < length t)%nat); simplify_eq; by left.
Qed.

(** The counter never runs behind: what has been played and what is
    left to play add up to 63 at least. *)
Lemma reachable_on_track (g : game) :
  reachable g →
  towers g ∈ positions ∧ (63 ≤ moves g + distance (towers g))%nat.
Proof.
  induction 1 as [g Hc | g e g' Hr [IHp IHd] _ Hh].
  - rewrite constructor_eq in Hc. simplify_eq. simpl.
    split; [apply fresh_position | rewrite fresh_distance; lia].
  - pose proof (reachable_inv g Hr) as Hinv. destruct e as [| |j]; simpl in Hh.
    + simplify_eq. unfold startGame. by destruct (isPlaying g).
    + rewrite resetGame_eq in Hh by apply Hinv. simplify_eq. simpl.
      split; [apply fresh_position | rewrite fresh_distance; lia].
    + destruct (click_outcome g g' j Hinv Hh)
        as [[-> ->]|(sel & g1 & Hsel & Hj & _ & Hv & Hm & -> & ->)]; [done|].
      pose proof (moveDisk_towers sel j g) as Ht. rewrite Hm in Ht. simpl in Ht.
      destruct (moveDisk sel j (at_play (towers g))) as [g2|] eqn:Hm2; [|done].
      simpl in Ht. simplify_eq. rewrite Ht.
      destruct (step_checked (towers g) sel j g2 IHp Hsel Hj Hv Hm2) as [Hp2 Hd2].
      split; [done | lia].
Qed.

Lemma won_distance (g : game) :
  towers g ∈ positions → checkWin g = Some true → distance (towers g) = 0%nat.
Proof.
  intros Hp Hw. pose proof wins_ok_true as H. unfold wins_ok in H.
  rewrite forallb_forall in H. specialize (H (towers g)).
  rewrite <- list_elem_of_In in H. specialize (H Hp).
  change (checkWin (at_play (towers g))) with (checkWin g) in H.
  rewrite Hw in H. by apply bool_decide_eq_true in H.
Qed.

Lemma won_after_63 (g : game) :
  reachable g → checkWin g = Some true → (63 ≤ moves g)%nat.
Proof.
  intros Hr Hw. destruct (reachable_on_track g Hr) as [Hp Hd].
  rewrite (won_distance g Hp Hw) in Hd. lia.
Qed.

Lemma solve_wired (n a b c : nat) :
  (a < 3)%nat → (b < 3)%nat → (c < 3)%nat → Forall wired (solve n a b c).
Proof.
  revert a b c. induction n as [|n IH]; intros a b c Ha Hb Hc; simpl.
  - apply Forall_nil_2.
  - apply Forall_app. split; [by apply IH|].
    apply Forall_cons_2; [done|]. apply Forall_cons_2; [done|]. by apply IH.
Qed.

Lemma shortest_game_wired : Forall wired shortest_game.
Proof. apply Forall_cons_2; [exact I|]. apply solve_wired; lia. Qed.

(** X1. In every state the page can reach, [checkWin] holds only when the
    move counter is 63 = 2^6 - 1 or more; and 63 is reached: the shortest
    game is a run of events that ends won, out of play, with the counter at
    63.  So the test [this.moves < this.minMoves] of [saveScore] never
    holds for a game that was won. *)
Theorem win_needs_63_moves :
  (∀ g, reachable g → checkWin g = Some true → (63 ≤ moves g)%nat)
  ∧ ∃ g0, constructor = Some g0
          ∧ Forall wired shortest_game
          ∧ checkWin (run shortest_game g0) = Some true
          ∧ moves (run shortest_game g0) = 63%nat
          ∧ isPlaying (run shortest_game g0) = false.
Proof.
  split; [apply won_after_63|].
  eexists. split; [apply constructor_eq|].
  split; [apply shortest_game_wired|]. vm_compute. done.
Qed.

Lemma win_needs_63_moves_witness :
  (63 ≤ moves (run shortest_game (Game [full_stack; []; []] None 0 false)))%nat.
Proof.
  apply (proj1 win_needs_63_moves).
  - apply reachable_run; [apply reachable_new, constructor_eq|].
    apply shortest_game_wired.
  - vm_compute. reflexivity.
Defined.

(** X2. In a state the page can reach no handler throws, whatever button
    or tower is clicked; and a selected tower is one of the three and has
    a disk on it, so that the handler finds the disk it unmarks. *)
Theorem handlers_never_throw (g : game) (e : event) :
  reachable g → wired e →
  is_Some (handle e g)
  ∧ ∀ s, selectedTower g = Some s →
         (s < 3)%nat ∧ ∃ t d, towers g !! s = Some (t ++ [d]).
Proof.
  intros Hr Hw. pose proof (reachable_inv g Hr) as Hinv.
  split; [by apply handle_total|].
  intros s Hs. destruct (inv_selected g Hinv s Hs) as (t & Ht & Hne).
  split.
  - apply lookup_lt_Some in Ht. rewrite (inv_three g Hinv) in Ht. done.
  - destruct (last t) as [d|] eqn:Hl; [|apply last_None in Hl; contradiction].
    apply last_Some in Hl as [tf ->]. eauto.
Qed.

Lemma handlers_never_throw_witness :
  is_Some (handle (TowerClick 1) mid_game)
  ∧ ∀ s, selectedTower mid_game = Some s →
         (s < 3)%nat ∧ ∃ t d, towers mid_game !! s = Some (t ++ [d]).
Proof.
  apply (handlers_never_throw mid_game (TowerClick 1));
    [apply mid_game_reachable | simpl; lia].
Defined.

(** X3. While the game is not in play (before Start, after a win, after
    Reset) clicks on the towers change nothing at all, however many. *)
Theorem clicks_ignored_when_idle (g : game) (clicks : list nat) :
  isPlaying g = false → run (TowerClick <$> clicks) g = g.
Proof.
  intros Hp. induction clicks as [|i clicks IH]; [done|].
  rewrite fmap_cons. simpl. unfold handleTowerClick. rewrite Hp. simpl. exact IH.
Qed.

Lemma clicks_ignored_when_idle_witness :
  run (TowerClick <$> [0; 2; 1; 7]%nat) (Game [full_stack; []; []] None 0 false)
  = Game [full_stack; []; []] None 0 false.
Proof.
  apply (clicks_ignored_when_idle (Game [full_stack; []; []] None 0 false)).
  reflexivity.
Defined.

Lemma moveDisk_keeps (i j : nat) (g g1 : game) :
  moveDisk i j g = Some g1 →
  moves g1 = moves g ∧ isPlaying g1 = isPlaying g.
Proof.
  unfold moveDisk. destruct (towers g !! i) as [tf|]; [simpl|done].
  destruct (last tf) as [d|]; [simpl|done].
  destruct (push j d _); [simpl|done]. by intros [= <-].
Qed.

(** X4. A click during play ends the play exactly when it moved a disk
    and the move completed the last tower; every other click leaves the
    game in play. *)
Theorem play_ends_on_winning_move (g g' : game) (j : nat) :
  reachable g → isPlaying g = true → handleTowerClick j g = Some g' →
  (isPlaying g' = false
   ↔ moves g' = S (moves g) ∧ checkWin g' = Some true).
Proof.
  intros Hr Hp H. pose proof (reachable_inv g Hr) as Hinv.
  pose proof Hinv as [L Hs Hd Hsel].
  destruct (selectedTower g) as [sel|] eqn:Hse.
  - destruct (Hsel sel eq_refl) as (t & Ht & Hne).
    destruct (last t) as [d|] eqn:Hl; [|apply last_None in Hl; contradiction].
    apply last_Some in Hl as [tf ->].
    unfold handleTowerClick in H. rewrite Hp, Hse in H. simpl in H.
    rewrite Ht in H. simpl in H. rewrite last_snoc in H. simpl in H.
    destruct (isValidMove sel j g) as [[|]|]; simpl in H; [| |done].
    + destruct (moveDisk sel j g) as [g1|] eqn:Hm; simpl in H; [|done].
      destruct (moveDisk_keeps _ _ _ _ Hm) as [Hm1 Hp1].
      destruct (checkWin (set_moves (S (moves g1)) g1)) as [won|] eqn:Hw;
        simpl in H; [|done].
      unfold checkWin in Hw. simpl in Hw.
      destruct won; simplify_eq; unfold checkWin; simpl; rewrite Hw.
      * split; [intros _; split; [by rewrite Hm1 | done] | done].
      * rewrite Hp1, Hp. split; [done | by intros [_ ?]].
    + simplify_eq. simpl. rewrite Hp. split; [done|]. intros [Hm _]. lia.
  - unfold handleTowerClick in H. rewrite Hp, Hse in H. simpl in H.
    destruct (towers g !! j) as [t|]; simpl in H; [|done].
    destruct (decide (0 < length t)%nat); simplify_eq; simpl; rewrite Hp;
      (split; [done|]; intros [Hm _]; lia).
Qed.

Lemma play_ends_on_winning_move_witness :
  ∃ g', handleTowerClick 1 mid_game = Some g'
        ∧ (isPlaying g' = false
           ↔ moves g' = S (moves mid_game) ∧ checkWin g' = Some true).
Proof.
  exists (default mid_game (handleTowerClick 1 mid_game)).
  split; [vm_compute; reflexivity|].
  apply (play_ends_on_winning_move mid_game _ 1);
    [apply mid_game_reachable | vm_compute; reflexivity..].
Defined.

End play_facts.

(* ===================================================================== *)
(** * From the game to the score service *)
(* ===================================================================== *)

Section submit_facts.
Import JS Http Hanoi Submit.

Variable Date_parse : string → number.
Variable text_of_number : ereal → string.

Lemma of_Z_ltb (a b : Z) : ereal_ltb (of_Z a) (of_Z b) = (a <? b).
Proof.
  simpl. destruct (Z.ltb_spec a b) as [H|H].
  - apply Qltb_lt. by rewrite <- Zlt_Qlt.
  - apply not_true_iff_false. rewrite Qltb_lt, <- Zlt_Qlt. lia.
Qed.

Lemma minMoves_63 : minMoves = 63%nat.
Proof. reflexivity. Qed.

Lemma trimStart_white (s : string) :
  forallb is_white (list_ascii_of_string s) = true → trimStart s = EmptyString.
Proof.
  induction s as [|c s IH]; simpl; [done|].
  intros [Hc Hs]%andb_true_iff. rewrite Hc. by apply IH.
Qed.

Lemma trim_white (s : string) :
  forallb is_white (list_ascii_of_string s) = true → trim s = EmptyString.
Proof. intros H. unfold trim. by rewrite (trimStart_white s H). Qed.

(** X5. After a win the page can reach, [saveScore] posts a body as soon
    as the player gives a name that is not empty: the name trimmed, the
    time, the move counter and the date of the moment.  Its own test on
    the number of moves never stops it. *)
Theorem won_game_is_posted (g : game) (n : string) (time clock : Z) :
  reachable g → checkWin g = Some true → n ≠ EmptyString →
  saveScore (Some n) time clock g
  = Some (Score (Str (trim n)) (Number (of_Z time))
                (Number (of_Z (Z.of_nat (moves g)))) (Str (toISOString clock))).
Proof.
  intros Hr Hw Hn. unfold saveScore.
  rewrite bool_decide_eq_false_2 by done.
  pose proof (won_after_63 g Hr Hw) as H63.
  rewrite minMoves_63.
  destruct (Nat.ltb_spec (moves g) 63) as [Hlt|_]; [lia|done].
Qed.

Lemma won_game_is_posted_witness :
  saveScore (Some " ana ") 412 Samples.now0
            (run Solve.shortest_game (Game [full_stack; []; []] None 0 false))
  = Some (Score (Str "ana") (Number (of_Z 412)) (Number (of_Z 63))
                (Str "2026-11-02T08:00:00.000Z")).
Proof.
  rewrite (won_game_is_posted _ " ana " 412 Samples.now0).
  - vm_compute. reflexivity.
  - apply reachable_run; [apply reachable_new, constructor_eq|].
    apply shortest_game_wired.
  - vm_compute. reflexivity.
  - discriminate.
Defined.

(** X6. Whatever body [saveScore] posts, from whatever state of the
    game, neither back end refuses it for its moves: the answer is never
    'Invalid moves' nor 'Invalid number of moves'.  The test of the page
    and the tests of the servers use the same bound. *)
Theorem posted_moves_pass (g : game) (pn : option string) (time clock : Z)
    (sc : score) now ip (t : Server.db) :
  saveScore pn time clock g = Some sc →
  (∀ e, Server.validateScore Date_parse now sc ip t = Server.Invalid e →
        e ≠ "Invalid moves" ∧ e ≠ "Invalid number of moves")
  ∧ (∀ e, PlainServer.validateScore sc = PlainServer.Invalid e →
          e ≠ "Invalid moves" ∧ e ≠ "Invalid number of moves").
Proof.
  unfold saveScore. destruct pn as [n|]; [|done].
  case_bool_decide; [done|]. rewrite minMoves_63.
  destruct (Nat.ltb_spec (moves g) 63) as [|Hge]; [done|]. intros [= <-].
  assert (ereal_ltb (of_Z (Z.of_nat (moves g))) (of_Z 0) = false) as H0.
  { rewrite of_Z_ltb. apply Z.ltb_ge. lia. }
  assert (ereal_ltb (of_Z (Z.of_nat (moves g))) (of_Z 63) = false) as H63.
  { rewrite of_Z_ltb. apply Z.ltb_ge. lia. }
  split; intros e.
  - unfold Server.validateScore. cbn [Http.name Http.time Http.moves Http.date].
    change (of_Z Server.minMoves) with (of_Z 63). rewrite H0, H63.
    repeat (match goal with
            | |- context [if ?b then _ else _] => destruct b
            | |- context [match ?x with Some _ => _ | None => _ end] =>
                destruct x
            end; try (intros [= <-]; done)).
  - unfold PlainServer.validateScore. cbn [Http.name Http.time Http.moves].
    change (of_Z PlainServer.minMoves) with (of_Z 63). rewrite H0, H63.
    repeat (match goal with
            | |- context [if ?b then _ else _] => destruct b
            end; try (intros [= <-]; done)).
Qed.

End submit_facts.

Section submit_examples.
Import JS Http Hanoi Submit.

Lemma posted_moves_pass_witness :
  (∀ e, Server.validateScore Date_parse_iso (Samples.now0 + 1000)
          (Score (Str "ana") (Number (of_Z 412)) (Number (of_Z 63))
                 (Str "2026-11-02T08:00:00.000Z"))
          Samples.ip0 Sql.empty = Server.Invalid e →
        e ≠ "Invalid moves" ∧ e ≠ "Invalid number of moves")
  ∧ (∀ e, PlainServer.validateScore
            (Score (Str "ana") (Number (of_Z 412)) (Number (of_Z 63))
                   (Str "2026-11-02T08:00:00.000Z")) = PlainServer.Invalid e →
          e ≠ "Invalid moves" ∧ e ≠ "Invalid number of moves").
Proof.
  apply (posted_moves_pass Date_parse_iso
           (run Solve.shortest_game (Game [full_stack; []; []] None 0 false))
           (Some " ana ") 412 Samples.now0).
  vm_compute. reflexivity.
Defined.

(** The body of the shortest game is stored by the second back end;
    src/server.js answers 500 to it, as to every score that passes its
    checks. *)
Example shortest_game_answers :
  let sc := Score (Str "ana") (Number (of_Z 412)) (Number (of_Z 63))
                  (Str "2026-11-02T08:00:00.000Z") in
  (Samples.post (Samples.now0 + 1000) Samples.ip0 sc Sql.empty).1
  = Response 500 (Error "Internal server error")
  ∧ (PlainServer.post_scores Sql.text_of_integer sc Sql.empty).1
    = Response 200 (Id 1).
Proof. vm_compute. done. Qed.

(** X7. A name made of white space only is not empty for the page, which
    posts it trimmed, that is empty; both back ends then answer 400
    'Invalid name' and store nothing. *)
Theorem blank_name_is_posted_and_refused (g : game) (n : string) (time clock : Z)
    (Date_parse : string → number) (text_of_number : ereal → string)
    now ip (t : Server.db) (t' : PlainServer.db) :
  n ≠ EmptyString →
  forallb is_white (list_ascii_of_string n) = true →
  (63 ≤ moves g)%nat →
  ∃ sc, saveScore (Some n) time clock g = Some sc
        ∧ Http.name sc = Str EmptyString
        ∧ Server.post_scores Date_parse text_of_number now ip sc t
          = (Response 400 (Error "Invalid name"), t)
        ∧ PlainServer.post_scores text_of_number sc t'
          = (Response 400 (Error "Invalid name"), t').
Proof.
  intros Hn Hw H63. eexists. split_and!.
  - unfold saveScore. rewrite bool_decide_eq_false_2 by done.
    rewrite minMoves_63.
    destruct (Nat.ltb_spec (moves g) 63) as [Hlt|_]; [lia|reflexivity].
  - simpl. by rewrite (trim_white n Hw).
  - apply server_invalid. unfold Server.validateScore. simpl.
    by rewrite (trim_white n Hw).
  - apply plain_invalid. unfold PlainServer.validateScore. simpl.
    by rewrite (trim_white n Hw).
Qed.

Lemma blank_name_is_posted_and_refused_witness :
  ∃ sc, saveScore (Some "   ") 412 Samples.now0
          (run Solve.shortest_game (Game [full_stack; []; []] None 0 false))
        = Some sc
        ∧ Http.name sc = Str EmptyString
        ∧ Samples.post Samples.now0 Samples.ip0 sc Sql.empty
          = (Response 400 (Error "Invalid name"), Sql.empty)
        ∧ PlainServer.post_scores Sql.text_of_integer sc Sql.empty
          = (Response 400 (Error "Invalid name"), Sql.empty).
Proof.
  apply (blank_name_is_posted_and_refused _ "   " 412 Samples.now0
           Date_parse_iso Sql.text_of_integer Samples.now0 Samples.ip0
           Sql.empty Sql.empty).
  - discriminate.
  - vm_compute. reflexivity.
  - vm_compute. lia.
Defined.

End submit_examples.

(* ===================================================================== *)
(** * What the score service keeps *)
(* ===================================================================== *)

Section keyed_facts.
Import JS Sql Stored.
Context {X : Type}.
Implicit Types (t : table X) (l : list (row X)).

Lemma keyed_empty : keyed (@empty X).
Proof. split; simpl; [apply SSorted_nil | apply Forall_nil_2]. Qed.

Lemma sorted_ids_filter (P : row X → Prop) `{∀ r, Decision (P r)} l :
  StronglySorted Z.lt (id <$> l) → StronglySorted Z.lt (id <$> filter P l).
Proof.
  induction l as [|r l IH]; [done|]. rewrite fmap_cons.
  intros [Hall Hs]%StronglySorted_cons. rewrite filter_cons.
  destruct (decide (P r)); [|by apply IH].
  rewrite fmap_cons. apply StronglySorted_cons. split; [|by apply IH].
  rewrite Forall_forall in Hall |- *. intros z Hz. apply Hall.
  apply list_elem_of_fmap in Hz as (r' & -> & Hr').
  apply list_elem_of_filter in Hr' as [_ Hr']. by apply list_elem_of_fmap_2.
Qed.

Lemma keyed_delete_worst t : keyed t → keyed (delete_worst t).
Proof.
  intros [Hs Hb]. unfold delete_worst. destruct (worst_id t) as [w|]; [|done].
  split; simpl.
  - by apply sorted_ids_filter.
  - rewrite Forall_forall in Hb |- *. intros r Hr.
    apply list_elem_of_filter in Hr as [_ Hr]. by apply Hb.
Qed.

Lemma sequence_delete_worst t :
  sqlite_sequence (delete_worst t) = sqlite_sequence t.
Proof. unfold delete_worst. by destruct (worst_id t). Qed.

Lemma keyed_next_rowid t : keyed t → next_rowid t = 1 + sqlite_sequence t.
Proof.
  intros [_ Hb]. unfold next_rowid. f_equal.
  induction (rows t) as [|r l IH]; [done|].
  apply Forall_cons in Hb as [Hr Hl]. rewrite fmap_cons. cbn [foldr].
  rewrite (IH Hl). lia.
Qed.

Lemma keyed_append t (new : row X) :
  keyed t → id new = next_rowid t →
  keyed (Table (rows t ++ [new]) (next_rowid t)).
Proof.
  intros Hk Hid. pose proof (keyed_next_rowid t Hk) as Hn.
  destruct Hk as [Hs Hb]. split; simpl.
  - rewrite fmap_app. apply StronglySorted_app. split_and!; [|done|].
    + intros z1 z2 Hz1 Hz2. apply list_elem_of_singleton in Hz2 as ->.
      apply list_elem_of_fmap in Hz1 as (r & -> & Hr).
      rewrite Forall_forall in Hb. specialize (Hb r Hr). lia.
    + apply StronglySorted_cons. split; [apply Forall_nil_2 | apply SSorted_nil].
  - apply Forall_app. split.
    + rewrite Forall_forall in Hb |- *. intros r Hr. specialize (Hb r Hr). lia.
    + apply Forall_cons_2; [lia | apply Forall_nil_2].
Qed.

Lemma keyed_NoDup t : keyed t → NoDup (id <$> rows t).
Proof.
  intros [Hs _]. induction (id <$> rows t) as [|z l IH]; [apply NoDup_nil_2|].
  apply StronglySorted_cons in Hs as [Hall Hs].
  apply NoDup_cons_2; [|by apply IH].
  intros Hin. rewrite Forall_forall in Hall. specialize (Hall z Hin). lia.
Qed.

End keyed_facts.

Section stored_facts.
Import JS Sql Http Stored.

Variable text_of_number : ereal → string.

(** The three ways a POST to the second back end ends. *)
Lemma plain_post_cases sc (t : PlainServer.db) :
  (∃ e, PlainServer.validateScore sc = PlainServer.Invalid e
        ∧ PlainServer.post_scores text_of_number sc t
          = (Response 400 (Error e), t))
  ∨ (PlainServer.validateScore sc = PlainServer.Valid
     ∧ ∃ msg, PlainServer.post_scores text_of_number sc t
              = (Response 500 (Error msg), t))
  ∨ (PlainServer.validateScore sc = PlainServer.Valid
     ∧ ∃ new,
         PlainServer.post_scores text_of_number sc t
         = (Response 200 (Id (next_rowid t)),
            Table (rows t ++ [new]) (next_rowid t))
         ∧ Sql.id new = next_rowid t
         ∧ Http.name sc = Str (Sql.name new)
         ∧ Http.time sc = Number (Sql.time new)
         ∧ Http.moves sc = Number (Sql.moves new)).
Proof.
  unfold PlainServer.post_scores.
  destruct (PlainServer.validateScore sc) as [|e] eqn:Hv.
  2:{ left. eauto. }
  right. destruct (plain_valid_types sc Hv) as (n & tm & mv & -> & -> & ->).
  destruct (insert _ _ _ _ _ _ _ _) as [f|[i t1]] eqn:Hi; [eauto|].
  apply (insert_inr text_of_number) in Hi as (dt & -> & ->).
  right. split; [done|]. eexists. split_and!; reflexivity.
Qed.

(** What its [validateScore] has checked of a score it lets through. *)
Lemma plain_valid_checked sc :
  PlainServer.validateScore sc = PlainServer.Valid →
  nonempty_string (Http.name sc) = true
  ∧ number_at_least 0 (Http.time sc) = true
  ∧ number_at_least 63 (Http.moves sc) = true.
Proof.
  unfold PlainServer.validateScore.
  destruct (Http.name sc) as [| | | |n| |]; try done.
  rewrite name_check. destruct (nonempty_string (Str n)) eqn:Hn; [|done].
  cbn [negb].
  destruct (Http.time sc) as [| | |tm| | |]; try done.
  destruct (ereal_ltb tm (of_Z 0)) eqn:Ht; [done|].
  destruct (Http.moves sc) as [| | |mv| | |]; try done.
  destruct (ereal_ltb mv (of_Z 0)) eqn:H0; [done|].
  change (of_Z PlainServer.minMoves) with (of_Z 63).
  destruct (ereal_ltb mv (of_Z 63)) eqn:H63; [done|].
  intros _. unfold number_at_least.
  rewrite ereal_ltb_leb in Ht, H63.
  apply negb_false_iff in Ht, H63. done.
Qed.

End stored_facts.

Section service_facts.
Import JS Sql Http Stored.

Variable Date_parse : string → number.
Variable text_of_number : ereal → string.

Lemma plain_post_checked sc (t : PlainServer.db) :
  Forall (λ r, plain_row_checked r = true) (rows t) →
  Forall (λ r, plain_row_checked r = true)
         (rows (PlainServer.post_scores text_of_number sc t).2).
Proof.
  intros H.
  destruct (plain_post_cases text_of_number sc t)
    as [(e & _ & ->)|[[_ [msg ->]]|(Hv & new & -> & _ & Hn & Ht & Hm)]]; simpl.
  - done.
  - done.
  - apply Forall_app. split; [done|].
    apply Forall_cons_2; [|apply Forall_nil_2].
    destruct (plain_valid_checked sc Hv) as (C1 & C3 & C4).
    rewrite Hn in C1. rewrite Ht in C3. rewrite Hm in C4.
    unfold plain_row_checked. by rewrite C1, C3, C4.
Qed.

Lemma plain_serve_checked rs (t : PlainServer.db) :
  Forall (λ r, plain_row_checked r = true) (rows t) →
  Forall (λ r, plain_row_checked r = true)
         (rows (PlainRun.serve text_of_number rs t).2).
Proof.
  revert t. induction rs as [|r rs IH]; intros t H; simpl; [done|].
  destruct (PlainRun.handle text_of_number r t) as [resp t1] eqn:Hh.
  specialize (IH t1).
  destruct (PlainRun.serve text_of_number rs t1) as [resps t2].
  simpl in *. apply IH. destruct r as [|sc|]; simpl in Hh.
  - unfold PlainServer.get_scores in Hh. by simplify_eq.
  - pose proof (plain_post_checked sc t H) as Hb. by rewrite Hh in Hb.
  - unfold PlainServer.delete_scores in Hh. simplify_eq. apply Forall_nil_2.
Qed.

(** X8. Whatever requests are served from an empty table, every row
    src/server.js holds has a name that is not blank and of 50 characters
    at most, a time from 0 to 3600 and at least 63 moves; every row the
    second back end holds has a name that is not blank, a time of 0 or
    more and at least 63 moves. *)
Theorem stored_scores_are_checked
    (rs : list Server.request) (rs' : list PlainRun.request) :
  Forall (λ r, row_checked r = true)
         (rows (Server.serve Date_parse text_of_number rs empty).2)
  ∧ Forall (λ r, plain_row_checked r = true)
           (rows (PlainRun.serve text_of_number rs' empty).2).
Proof.
  split.
  - rewrite server_serve_untouched. apply Forall_nil_2.
  - apply plain_serve_checked, Forall_nil_2.
Qed.

(** Each request keeps the rowids in order and under the counter, and
    an id it answers is above the counter it found. *)
Lemma server_handle_keyed r (t t1 : Server.db) resp :
  keyed t → Server.handle Date_parse text_of_number r t = (resp, t1) →
  keyed t1 ∧ sqlite_sequence t ≤ sqlite_sequence t1
  ∧ ∀ i, json resp = Id i → sqlite_sequence t < i ≤ sqlite_sequence t1.
Proof.
  intros Hk Hh. destruct r as [|now ip sc]; simpl in Hh.
  - unfold Server.get_scores in Hh. simplify_eq. split_and!; [done|lia|done].
  - destruct (server_post_cases Date_parse text_of_number now ip sc t)
      as [(e & _ & E)|[_ E]];
      rewrite E in Hh; simplify_eq; simpl; split_and!; [done|lia|done..].
Qed.

Lemma plain_handle_keyed r (t t1 : PlainServer.db) resp :
  keyed t → PlainRun.handle text_of_number r t = (resp, t1) →
  keyed t1 ∧ sqlite_sequence t ≤ sqlite_sequence t1
  ∧ ∀ i, json resp = Id i → sqlite_sequence t < i ≤ sqlite_sequence t1.
Proof.
  intros Hk Hh. destruct r as [|sc|]; simpl in Hh.
  - unfold PlainServer.get_scores in Hh. simplify_eq. split_and!; [done|lia|done].
  - destruct (plain_post_cases text_of_number sc t)
      as [(e & _ & E)|[[_ [msg E]]|(_ & new & E & Hid & _)]];
      rewrite E in Hh; simplify_eq; simpl.
    + split_and!; [done|lia|done].
    + split_and!; [done|lia|done].
    + pose proof (keyed_next_rowid _ Hk) as Hn.
      split_and!; [by apply keyed_append | lia |].
      intros i [= <-]. lia.
  - unfold PlainServer.delete_scores in Hh. simplify_eq. simpl.
    split_and!; [|lia|done].
    split; simpl; [apply SSorted_nil | apply Forall_nil_2].
Qed.

Lemma answered_ids_cons resp resps :
  answered_ids (resp :: resps)
  = match json resp with
    | Id i => i :: answered_ids resps
    | _ => answered_ids resps
    end.
Proof. unfold answered_ids. simpl. by destruct (json resp). Qed.

Lemma server_serve_keyed rs (t : Server.db) :
  keyed t →
  keyed (Server.serve Date_parse text_of_number rs t).2
  ∧ StronglySorted Z.lt
      (answered_ids (Server.serve Date_parse text_of_number rs t).1)
  ∧ Forall (λ i, sqlite_sequence t < i)
      (answered_ids (Server.serve Date_parse text_of_number rs t).1).
Proof.
  revert t. induction rs as [|r rs IH]; intros t Hk; simpl.
  { split_and!; [done | apply SSorted_nil | apply Forall_nil_2]. }
  destruct (Server.handle Date_parse text_of_number r t) as [resp t1] eqn:Hh.
  destruct (server_handle_keyed r t t1 resp Hk Hh) as (Hk1 & Hle & Hid).
  specialize (IH t1 Hk1).
  destruct (Server.serve Date_parse text_of_number rs t1) as [resps t2].
  cbn [fst snd] in *. destruct IH as (Hk2 & Hs & Hall).
  rewrite answered_ids_cons. split; [done|].
  assert (Forall (λ i, sqlite_sequence t < i) (answered_ids resps)) as Hall'.
  { eapply Forall_impl; [exact Hall|]. simpl. intros; lia. }
  destruct (json resp) as [| i | |] eqn:Hj; try done.
  destruct (Hid i eq_refl) as [Hlo Hhi]. split.
  - apply StronglySorted_cons. split; [|done].
    eapply Forall_impl; [exact Hall|]. simpl. intros; lia.
  - by apply Forall_cons_2.
Qed.

Lemma plain_serve_keyed rs (t : PlainServer.db) :
  keyed t →
  keyed (PlainRun.serve text_of_number rs t).2
  ∧ StronglySorted Z.lt (answered_ids (PlainRun.serve text_of_number rs t).1)
  ∧ Forall (λ i, sqlite_sequence t < i)
      (answered_ids (PlainRun.serve text_of_number rs t).1).
Proof.
  revert t. induction rs as [|r rs IH]; intros t Hk; simpl.
  { split_and!; [done | apply SSorted_nil | apply Forall_nil_2]. }
  destruct (PlainRun.handle text_of_number r t) as [resp t1] eqn:Hh.
  destruct (plain_handle_keyed r t t1 resp Hk Hh) as (Hk1 & Hle & Hid).
  specialize (IH t1 Hk1).
  destruct (PlainRun.serve text_of_number rs t1) as [resps t2].
  cbn [fst snd] in *. destruct IH as (Hk2 & Hs & Hall).
  rewrite answered_ids_cons. split; [done|].
  assert (Forall (λ i, sqlite_sequence t < i) (answered_ids resps)) as Hall'.
  { eapply Forall_impl; [exact Hall|]. simpl. intros; lia. }
  destruct (json resp) as [| i | |] eqn:Hj; try done.
  destruct (Hid i eq_refl) as [Hlo Hhi]. split.
  - apply StronglySorted_cons. split; [|done].
    eapply Forall_impl; [exact Hall|]. simpl. intros; lia.
  - by apply Forall_cons_2.
Qed.

(** X9. Whatever requests are served from an empty table, by either back
    end, the ids answered to the POSTs that succeed are strictly
    increasing, also across evictions and across DELETE, and no two rows
    of the table have the same id. *)
Theorem ids_increase_and_are_unique
    (rs : list Server.request) (rs' : list PlainRun.request) :
  (StronglySorted Z.lt
     (answered_ids (Server.serve Date_parse text_of_number rs empty).1)
   ∧ NoDup (Sql.id <$> rows (Server.serve Date_parse text_of_number rs empty).2))
  ∧ (StronglySorted Z.lt
       (answered_ids (PlainRun.serve text_of_number rs' empty).1)
     ∧ NoDup (Sql.id <$> rows (PlainRun.serve text_of_number rs' empty).2)).
Proof.
  split.
  - destruct (server_serve_keyed rs empty keyed_empty) as (Hk & Hs & _).
    split; [done | by apply keyed_NoDup].
  - destruct (plain_serve_keyed rs' empty keyed_empty) as (Hk & Hs & _).
    split; [done | by apply keyed_NoDup].
Qed.

End service_facts.

Section more_service_facts.
Import JS Sql Http Stored.

Variable Date_parse : string → number.
Variable text_of_number : ereal → string.



(** A table with fewer than ten rows is listed whole. *)
Lemma short_table_listed {X} (t : table X) (r : row X) :
  (length (rows t) ≤ 10)%nat → r ∈ rows t →
  select_id_name_time_moves_date r
  ∈ select_id_name_time_moves_date <$> top10 t.
Proof.
  intros Hlen Hr. apply list_elem_of_fmap_2. unfold top10.
  rewrite take_ge.
  - unfold order_by_moves_time_asc. by rewrite order_by_Permutation.
  - unfold order_by_moves_time_asc. by rewrite order_by_Permutation.
Qed.

(** X11. A score that the second back end has just stored on a table of
    fewer than ten rows is on the list the next GET returns, under the id
    that was answered and with the name, time, moves and date that were
    posted. *)
Theorem posted_score_is_listed sc (u u1 : PlainServer.db) i n tm mv d :
  Http.name sc = Str n → Http.time sc = Number tm →
  Http.moves sc = Number mv → Http.date sc = Str d →
  PlainServer.post_scores text_of_number sc u = (Response 200 (Id i), u1) →
  count u < 10 →
  ∃ recs, PlainServer.get_scores u1 = (Response 200 (Scores recs), u1)
          ∧ [("id", Integer i); ("name", Text n); ("time", Numeric tm);
             ("moves", Numeric mv); ("date", Text d)] ∈ recs.
Proof.
  intros Hn Htm Hmv Hd Hp Hc. eexists. split; [reflexivity|].
  unfold PlainServer.post_scores in Hp.
  destruct (PlainServer.validateScore sc); [|done].
  rewrite Hn, Htm, Hmv, Hd in Hp. cbn in Hp. injection Hp as <- <-.
  change [("id", Integer (next_rowid u)); ("name", Text n);
          ("time", Numeric tm); ("moves", Numeric mv); ("date", Text d)]
    with (select_id_name_time_moves_date (Row (next_rowid u) n tm mv d ())).
  apply (short_table_listed (Table _ _)); simpl.
  - unfold count in Hc. rewrite length_app. simpl. lia.
  - apply elem_of_app. right. apply list_elem_of_here.
Qed.

Lemma server_throws_plain_valid now ip sc (t : Server.db) :
  Server.validateScore Date_parse now sc ip t = Server.Throws →
  PlainServer.validateScore sc = PlainServer.Valid.
Proof.
  unfold Server.validateScore, PlainServer.validateScore.
  destruct (Http.name sc) as [| | | |n| |]; try done.
  destruct (falsy (Str n) || _); [done|].
  destruct (50 <? String.length n)%nat; [done|].
  destruct (Http.time sc) as [| | |tm| | |]; try done.
  destruct (ereal_ltb tm (of_Z 0)); [done|]. cbn [orb].
  destruct (ereal_ltb (of_Z 3600) tm); [done|].
  destruct (Http.moves sc) as [| | |mv| | |]; try done.
  destruct (ereal_ltb mv (of_Z 0)); [done|].
  change (of_Z Server.minMoves) with (of_Z PlainServer.minMoves).
  destruct (ereal_ltb mv (of_Z PlainServer.minMoves)); done.
Qed.

(** X12. What src/server.js does not refuse with status 400, the second
    back end does not refuse either: such a score passes the
    [validateScore] of the second.  The checks of the second are among
    those of the first. *)
Theorem hardened_is_stricter now ip sc (t : Server.db) :
  status (Server.post_scores Date_parse text_of_number now ip sc t).1 ≠ 400 →
  PlainServer.validateScore sc = PlainServer.Valid.
Proof.
  destruct (server_post_cases Date_parse text_of_number now ip sc t)
    as [(e & _ & ->)|[Hv _]]; [done|].
  intros _. by apply (server_throws_plain_valid now ip sc t).
Qed.

End more_service_facts.

Section more_service_examples.
Import JS Sql Http Stored Samples.

(** A score with a date of null passes the checks, null being the date
    of 1970; it is answered 500 and the full table keeps its 100 rows. *)
Example null_date_is_answered_500 :
  post now0 ip0 (Score (Str "ana") (Number (of_Z 120)) (Number (of_Z 70)) Null)
       (full_table ip0)
  = (Response 500 (Error "Internal server error"), full_table ip0).
Proof. vm_compute. reflexivity. Qed.

(** The second back end binds the one element of an array as the date,
    and answers 500 when there are two, or when there is no date. *)
Example plain_array_dates :
  PlainServer.post_scores text_of_integer
    (Score (Str "ana") (Number (of_Z 120)) (Number (of_Z 70))
           (Array [Str "yesterday"] "yesterday")) empty
  = (Response 200 (Id 1),
     Table [Row 1 "ana" (of_Z 120) (of_Z 70) "yesterday" ()] 1)
  ∧ (let r := PlainServer.post_scores text_of_integer
                (Score (Str "ana") (Number (of_Z 120)) (Number (of_Z 70))
                       (Array [Str "a"; Str "b"] "a,b")) empty in
     status r.1 = 500 ∧ r.2 = empty)
  ∧ PlainServer.post_scores text_of_integer
      (Score (Str "ana") (Number (of_Z 120)) (Number (of_Z 70)) Undefined) empty
    = (Response 500 (Error "NOT NULL constraint failed: scores.date"), empty).
Proof. vm_compute. done. Qed.

Lemma posted_score_is_listed_witness :
  ∃ recs, PlainServer.get_scores
            (PlainServer.post_scores text_of_integer good empty).2
          = (Response 200 (Scores recs),
             (PlainServer.post_scores text_of_integer good empty).2)
          ∧ [("id", Integer 1); ("name", Text "ana");
             ("time", Numeric (of_Z 120)); ("moves", Numeric (of_Z 70));
             ("date", Text "2026-11-02T07:59:00.000Z")] ∈ recs.
Proof.
  apply (posted_score_is_listed text_of_integer good
           empty (PlainServer.post_scores text_of_integer good empty).2
           1 "ana" (of_Z 120) (of_Z 70) "2026-11-02T07:59:00.000Z");
    vm_compute; done.
Defined.

Lemma hardened_is_stricter_witness :
  PlainServer.validateScore good = PlainServer.Valid.
Proof.
  apply (hardened_is_stricter Date_parse_iso text_of_integer now0 ip0 good empty).
  vm_compute. discriminate.
Defined.

End more_service_examples.

(* ===================================================================== *)
(** * Reading a width back *)
(* ===================================================================== *)

Section width_facts.
Import JS Hanoi.

Lemma pretty_N_go_app (x : N) (s r : string) :
  pretty_N_go x s +:+ r = pretty_N_go x (s +:+ r).
Proof.
  revert s. induction (N.lt_wf_0 x) as [x _ IH]; intros s.
  destruct (decide (x = 0%N)) as [->|Hx]; [by rewrite !pretty_N_go_0|].
  rewrite (pretty_N_go_step x s), (pretty_N_go_step x (s +:+ r)) by lia.
  rewrite IH by (apply N.div_lt; lia). reflexivity.
Qed.

Lemma digit_of_pretty_N_char (d : N) :
  (d < 10)%N → digit_of 10 (pretty_N_char d) = Some (Z.of_N d).
Proof.
  intros Hd.
  assert (d = 0 ∨ d = 1 ∨ d = 2 ∨ d = 3 ∨ d = 4 ∨ d = 5 ∨ d = 6 ∨ d = 7
          ∨ d = 8 ∨ d = 9)%N as H by lia.
  repeat (destruct H as [->|H]; [reflexivity|]). by subst.
Qed.

(** Reading the digits that were printed gives the number back. *)
Lemma digits_pretty_N_go (x : N) (s : string) :
  (0 < x)%N →
  digits 10 None (pretty_N_go x s) = digits 10 (Some (Z.of_N x)) s.
Proof.
  revert s. induction (N.lt_wf_0 x) as [x _ IH]; intros s Hx.
  rewrite (pretty_N_go_step x s) by done.
  destruct (decide (x `div` 10 = 0)%N) as [E|E].
  - rewrite E, pretty_N_go_0. cbn [digits].
    rewrite digit_of_pretty_N_char by (apply N.mod_lt; lia).
    cbn [default]. pose proof (N.Div0.div_mod x 10) as Hdm.
    replace (0 * 10 + Z.of_N (x `mod` 10)) with (Z.of_N x) by lia. done.
  - rewrite IH; [| apply N.div_lt; lia | by apply N.neq_0_lt_0]. cbn [digits].
    rewrite digit_of_pretty_N_char by (apply N.mod_lt; lia).
    cbn [default]. pose proof (N.Div0.div_mod x 10) as Hdm.
    replace (id (Z.of_N (x `div` 10)) * 10 + Z.of_N (x `mod` 10))
      with (Z.of_N x) by (unfold id; lia). done.
Qed.

(** What is printed starts with a digit that is not 0. *)
Lemma pretty_N_go_head (x : N) (s : string) :
  (0 < x)%N →
  ∃ k r, pretty_N_go x s = String (pretty_N_char k) r ∧ (0 < k < 10)%N.
Proof.
  revert s. induction (N.lt_wf_0 x) as [x _ IH]; intros s Hx.
  rewrite (pretty_N_go_step x s) by done.
  destruct (decide (x `div` 10 = 0)%N) as [E|E].
  - rewrite E, pretty_N_go_0. exists (x `mod` 10)%N, s. split; [done|].
    assert (x `mod` 10 < 10)%N as Hlt by (by apply N.mod_lt).
    pose proof (N.Div0.div_mod x 10) as Hdm. rewrite E in Hdm.
    rewrite N.mul_0_r, N.add_0_l in Hdm. split; [by rewrite <- Hdm | done].
  - apply IH; [apply N.div_lt; lia | by apply N.neq_0_lt_0].
Qed.

Lemma parseInt_digit_head (k : N) (r : string) :
  (0 < k < 10)%N →
  parseInt (String (pretty_N_char k) r)
  = match digits 10 None (String (pretty_N_char k) r) with
    | Some n => Num (of_Z n)
    | None => NaN
    end.
Proof.
  intros Hk.
  assert (k = 1 ∨ k = 2 ∨ k = 3 ∨ k = 4 ∨ k = 5 ∨ k = 6 ∨ k = 7
          ∨ k = 8 ∨ k = 9)%N as H by lia.
  unfold parseInt.
  repeat (destruct H as [->|H];
          [cbn [pretty_N_char trimStart is_white]; simpl;
           by destruct (digits _ _ _) as [n|]; [rewrite ?Z.mul_1_l; destruct n|]|]).
  subst. cbn [pretty_N_char trimStart is_white]. simpl.
  by destruct (digits _ _ _) as [n|]; [destruct n|].
Qed.

(** X13. For every rank [i] whose width [i * 25 + 20] is below 2^53,
    so also beyond the six of the game, the size the game reads back
    from the disk it created, [parseInt] of the width text, is the
    [i * 25 + 20] it wrote; so one created disk may carry another
    exactly when its rank is the larger one. *)
Theorem created_width_reads_back (i j : nat) :
  Z.of_nat i * 25 + 20 < 2 ^ 53 → Z.of_nat j * 25 + 20 < 2 ^ 53 →
  size (createDisk i) = Num (of_Z (Z.of_nat i * 25 + 20))
  ∧ (carries (createDisk i) (createDisk j) ↔ (j < i)%nat).
Proof.
  intros _ _.
  assert (∀ k, size (createDisk k) = Num (of_Z (Z.of_nat k * 25 + 20))) as Hsize.
  { intros k. unfold size, createDisk. cbn [style_width].
    destruct (Z.of_nat k * 25 + 20) as [|p|p] eqn:E; [lia| |lia].
    change (pretty (Z.pos p)) with (pretty_N_go (N.pos p) "").
    rewrite pretty_N_go_app. change ("" +:+ "px") with "px".
    destruct (pretty_N_go_head (N.pos p) "px") as (d & r & Hh & Hd); [done|].
    rewrite Hh, parseInt_digit_head by done. rewrite <- Hh.
    rewrite digits_pretty_N_go by done. reflexivity. }
  split; [apply Hsize|].
  unfold carries. rewrite !Hsize. cbn [ltb]. rewrite of_Z_ltb.
  rewrite Z.ltb_lt. lia.
Qed.

Lemma created_width_reads_back_witness :
  size (createDisk 6) = Num (of_Z 170)
  ∧ (carries (createDisk 6) (createDisk 3) ↔ (3 < 6)%nat).
Proof. apply (created_width_reads_back 6 3); vm_compute; reflexivity. Defined.

End width_facts.

(* ===================================================================== *)
(** * The text of the clock *)
(* ===================================================================== *)

Section clock_facts.
Import Submit.

(** X14. While the clock has not gone back since the start of the game
    (and the two instants are less than 2^53 milliseconds apart),
    [updateTimer] writes the whole minutes elapsed, a colon, and the
    remaining seconds in exactly two digits. *)
Theorem updateTimer_format (startTime now : Z) :
  startTime ≤ now → now - startTime < 2 ^ 53 →
  updateTimer startTime now
  = pretty ((now - startTime) / 60000) +:+ ":"
    +:+ String (pretty_N_char
                  (Z.to_N ((((now - startTime) / 1000) `mod` 60) / 10)))
          (String (pretty_N_char
                     (Z.to_N ((((now - startTime) / 1000) `mod` 60) `mod` 10)))
                  "").
Proof.
  intros Hle _. unfold updateTimer. cbv zeta.
  set (elapsed := (now - startTime) / 1000).
  assert (0 ≤ elapsed) as He by (apply Z.div_pos; lia).
  rewrite Z.rem_mod_nonneg by lia.
  replace ((now - startTime) / 60000) with (elapsed / 60)
    by (unfold elapsed; rewrite Z.div_div by lia; reflexivity).
  do 2 f_equal.
  assert (forallb (λ s, bool_decide
            (padStart2 (pretty s)
             = String (pretty_N_char (Z.to_N (s / 10)))
                 (String (pretty_N_char (Z.to_N (s `mod` 10))) "")))
            (seqZ 0 60) = true) as Htable by (vm_compute; reflexivity).
  rewrite forallb_forall in Htable. specialize (Htable (elapsed `mod` 60)).
  rewrite <- list_elem_of_In, elem_of_seqZ in Htable.
  pose proof (Z.mod_pos_bound elapsed 60 ltac:(lia)) as Hb.
  specialize (Htable ltac:(lia)). by apply bool_decide_eq_true in Htable.
Qed.

Lemma updateTimer_format_witness :
  updateTimer 1793606400000 1793606525400 = "2:05".
Proof.
  rewrite (updateTimer_format 1793606400000 1793606525400) by lia.
  vm_compute. reflexivity.
Defined.

(** A clock that was set back shows the signs. *)
Example clock_set_back : updateTimer 5000 0 = "-1:-5".
Proof. vm_compute. reflexivity. Qed.

End clock_facts.
